(** * FLUTE-WELL: MIDI-to-monophony importer and playback scheduler

    Shallow embedding of [src/midi_importer.rs], [src/engine/mod.rs],
    [src/player.rs], [src/util.rs] and the key table of
    [src/model/mappings/windows.rs].

    Modelling conventions:
    - [f64] millisecond values are modelled by exact rationals [Q]; the
      arithmetic is the source's, without rounding.
    - [u8]/[i32] values are [Z]; tick counts ([u64]) are [Z] with the
      saturating and wrapping arithmetic of the source written out.
    - A [Vec] that the source grows with [push] is kept newest-first
      (head = last pushed) and reversed where the source returns it.
    - A [BTreeMap] is a key-sorted association list; a [HashMap] used only
      for lookup is an association list. *)

From Stdlib Require Import ZArith QArith Qabs Qminmax Lqa Lia List Sorted Bool String.
Import ListNotations.

Open Scope Z_scope.

(* ------------------------------------------------------------------ *)
(** ** Data model *)

(** [Note] of the importer: [Note { midi, velocity }] (the struct literals
    in [midi_importer.rs] fix these two fields); its [PartialEq] is the
    derived, field-wise one. *)
Record Note := mkNote { midi : Z; velocity : Z }.

Definition note_eqb (a b : Note) : bool :=
  Z.eqb (midi a) (midi b) && Z.eqb (velocity a) (velocity b).

Record Event := mkEvent { note : Note; time_ms : Q; duration_ms : Q }.

Definition end_ms (e : Event) : Q := (time_ms e + duration_ms e)%Q.

Inductive PolyPolicy := Highest | Lowest | Loudest | Densest.

(** [const EPSILON_MS: f64 = 2.0] *)
Definition EPSILON_MS : Q := 2.

Record Point := mkPoint {
  pt_time_ms : Q;
  is_start : bool;
  pt_midi : Z;
  pt_velocity : Z;
  pt_duration_ms : Q
}.

(* ------------------------------------------------------------------ *)
(** ** Stable sorting ([Vec::sort_by] is a stable sort) *)

Section StableSort.
Context {A : Type} (lt : A -> A -> bool).

(** Insert [x] after every element it is not strictly smaller than. *)
Fixpoint insert_stable (x : A) (l : list A) : list A :=
  match l with
  | [] => [x]
  | y :: l' => if lt x y then x :: y :: l' else y :: insert_stable x l'
  end.

Definition sort_stable (l : list A) : list A :=
  fold_left (fun acc x => insert_stable x acc) l [].
End StableSort.

(* ------------------------------------------------------------------ *)
(** ** Ordered maps ([BTreeMap<u8, _>]) as key-sorted association lists *)

Section AssocMap.
Context {V : Type}.

Fixpoint bt_insert (k : Z) (v : V) (m : list (Z * V)) : list (Z * V) :=
  match m with
  | [] => [(k, v)]
  | (k', v') :: m' =>
      if Z.ltb k k' then (k, v) :: m
      else if Z.eqb k k' then (k, v) :: m'
      else (k', v') :: bt_insert k v m'
  end.

Fixpoint bt_remove (k : Z) (m : list (Z * V)) : list (Z * V) :=
  match m with
  | [] => []
  | (k', v') :: m' => if Z.eqb k k' then m' else (k', v') :: bt_remove k m'
  end.

Fixpoint bt_get (k : Z) (m : list (Z * V)) : option V :=
  match m with
  | [] => None
  | (k', v') :: m' => if Z.eqb k k' then Some v' else bt_get k m'
  end.

Definition bt_keys (m : list (Z * V)) : list Z := map fst m.
End AssocMap.

(* ------------------------------------------------------------------ *)
(** ** [reduce_to_monophonic] *)

(** The two points pushed for each event. *)
Definition points_of_event (ev : Event) : list Point :=
  [ mkPoint (time_ms ev) true (midi (note ev)) (velocity (note ev)) (duration_ms ev);
    mkPoint (time_ms ev + duration_ms ev)%Q false (midi (note ev))
            (velocity (note ev)) (duration_ms ev) ].

(** The comparator of [points.sort_by]: by time, then [is_start as u8]
    (end points first).  [lt a b] is [cmp(a, b) == Less]. *)
Definition point_lt (a b : Point) : bool :=
  match Qcompare (pt_time_ms a) (pt_time_ms b) with
  | Lt => true
  | Gt => false
  | Eq => negb (is_start a) && is_start b
  end.

Definition sorted_points (events : list Event) : list Point :=
  sort_stable point_lt (flat_map points_of_event events).

Definition max_by_vel_step (acc : option (Z * Z)) (x : Z * Z) : option (Z * Z) :=
  match acc with
  | None => Some x
  | Some y => if Z.ltb (fst x) (fst y) then Some y else Some x
  end.

(** [Iterator::max_by_key]: on ties the last maximum wins. *)
Definition max_by_vel (l : list (Z * Z)) : option (Z * Z) :=
  fold_left max_by_vel_step l None.

(** The choice of [chosen]; [None] is the panic of [todo!()]. *)
Definition choose (policy : PolyPolicy) (active : list (Z * Q))
  (note_velocity_lookup : list (Z * Z)) : option (option Z) :=
  match policy with
  | Highest => Some (last (map Some (bt_keys active)) None)
  | Lowest => Some (hd None (map Some (bt_keys active)))
  | Loudest =>
      Some (option_map snd
        (max_by_vel
          (flat_map (fun n => match bt_get n note_velocity_lookup with
                              | Some vel => [(vel, n)]
                              | None => []
                              end) (bt_keys active))))
  | Densest => None
  end.

Record SweepState := mkSweep {
  result : list Event;              (* newest first *)
  current_note : option Z;
  current_start : option Q;
  active : list (Z * Q);
  note_velocity_lookup : list (Z * Z)
}.

Definition sweep_init : SweepState := mkSweep [] None None [] [].

Definition option_Z_eqb (a b : option Z) : bool :=
  match a, b with
  | Some x, Some y => Z.eqb x y
  | None, None => true
  | _, _ => false
  end.

(** One iteration of [for pt in points]; [None] is a panic. *)
Definition sweep_step (policy : PolyPolicy) (st : SweepState) (pt : Point)
  : option SweepState :=
  let '(act, lookup) :=
    if is_start pt
    then (bt_insert (pt_midi pt) (pt_time_ms pt + pt_duration_ms pt)%Q (active st),
          bt_insert (pt_midi pt) (pt_velocity pt) (note_velocity_lookup st))
    else (bt_remove (pt_midi pt) (active st),
          bt_remove (pt_midi pt) (note_velocity_lookup st)) in
  match choose policy act lookup with
  | None => None
  | Some chosen =>
      if option_Z_eqb chosen (current_note st)
      then Some (mkSweep (result st) (current_note st) (current_start st) act lookup)
      else
        let res :=
          match current_note st, current_start st with
          | Some cn, Some cs =>
              if Qlt_le_dec (cs + EPSILON_MS) (pt_time_ms pt)
              then mkEvent (mkNote cn (pt_velocity pt)) cs (pt_time_ms pt - cs)%Q
                     :: result st
              else result st
          | _, _ => result st
          end in
        match chosen with
        | Some ch => Some (mkSweep res (Some ch) (Some (pt_time_ms pt)) act lookup)
        | None => Some (mkSweep res None None act lookup)
        end
  end.

Fixpoint sweep (policy : PolyPolicy) (st : SweepState) (pts : list Point)
  : option SweepState :=
  match pts with
  | [] => Some st
  | pt :: pts' =>
      match sweep_step policy st pt with
      | None => None
      | Some st' => sweep policy st' pts'
      end
  end.

(** One iteration of the merge loop; [merged] is newest first. *)
Definition merge_step (merge : bool) (merged : list Event) (ev : Event)
  : list Event :=
  match merged with
  | last :: rest =>
      if merge && note_eqb (note last) (note ev)
         && Qle_bool (Qabs (end_ms last - time_ms ev)) EPSILON_MS
      then
        let new_end := Qmax (end_ms last) (end_ms ev) in
        mkEvent (note last) (time_ms last) (new_end - time_ms last)%Q :: rest
      else ev :: merged
  | [] => ev :: merged
  end.

Definition merge_pass (merge : bool) (result : list Event) : list Event :=
  rev (fold_left (merge_step merge) result []).

(** [reduce_to_monophonic(events, policy, merge)]; [None] is a panic. *)
Definition reduce_to_monophonic (events : list Event) (policy : PolyPolicy)
  (merge : bool) : option (list Event) :=
  match events with
  | [] => Some []
  | _ =>
      match sweep policy sweep_init (sorted_points events) with
      | None => None
      | Some st => Some (merge_pass merge (rev (result st)))
      end
  end.

(** Projection used to compare outputs: (pitch, start, duration). *)
Definition shape (e : Event) : Z * Q * Q := (midi (note e), time_ms e, duration_ms e).

Definition ev (m v : Z) (s d : Q) : Event := mkEvent (mkNote m v) s d.

(* ------------------------------------------------------------------ *)
(** ** [midi_bytes_to_song]: from parsed tracks to the final events *)

(** Machine arithmetic of the source. *)
Definition U64_MAX : Z := 2 ^ 64 - 1.
(** [u64::saturating_add] *)
Definition sat_add64 (a b : Z) : Z := Z.min (a + b) U64_MAX.
(** [u64] [+] with release-mode wrap-around. *)
Definition wrap64 (x : Z) : Z := x mod 2 ^ 64.
(** [i32] [+] with release-mode wrap-around. *)
Definition wrap32 (x : Z) : Z := (x + 2 ^ 31) mod 2 ^ 32 - 2 ^ 31.

(** [const DEFAULT_MPQN: u32 = 500_000] *)
Definition DEFAULT_MPQN : Z := 500000.

(** The parsed MIDI file, as [midly] hands it over. *)
Inductive Timing := Metrical (ticks_per_quarter : Z) | Timecode.

Inductive TrackEventKind :=
  | MetaTempo (mpqn : Z)
  | MetaTrackName (utf8 : option string)   (* [None]: not valid UTF-8 *)
  | MetaOther
  | MidiNoteOn (channel key vel : Z)
  | MidiNoteOff (channel key vel : Z)
  | MidiOther
  | OtherKind.

Record TrackEvent := mkTrackEvent { delta : Z; kind : TrackEventKind }.

Record NoteInterval := mkInterval {
  ni_midi : Z;
  start_tick : Z;
  end_tick : Z;
  ni_velocity : Z;
  ni_channel : Z
}.

Record TempoSegment := mkSegment { mpqn : Z; seg_start_tick : Z; ms_at_start : Q }.

(** The [HashMap<(u8, u8), Vec<(u64, u8)>>] of open notes; each stack is
    kept top first.  The map iterates in insertion order, one of the
    orders a [HashMap] may produce. *)
Definition OpenNotes := list ((Z * Z) * list (Z * Z)).

Fixpoint open_get (k : Z * Z) (m : OpenNotes) : option (list (Z * Z)) :=
  match m with
  | [] => None
  | (k', s) :: m' =>
      if Z.eqb (fst k) (fst k') && Z.eqb (snd k) (snd k') then Some s else open_get k m'
  end.

Fixpoint open_set (k : Z * Z) (s : list (Z * Z)) (m : OpenNotes) : OpenNotes :=
  match m with
  | [] => [(k, s)]
  | (k', s') :: m' =>
      if Z.eqb (fst k) (fst k') && Z.eqb (snd k) (snd k')
      then (k', s) :: m' else (k', s') :: open_set k s m'
  end.

Record ExtractState := mkExtract {
  tempo_changes : list (Z * Z);       (* newest first *)
  intervals : list NoteInterval;      (* newest first *)
  open_notes : OpenNotes;
  track_name : string
}.

(** [close_note] *)
Definition close_note (st : ExtractState) (ch midi_num abs_tick : Z) : ExtractState :=
  match open_get (ch, midi_num) (open_notes st) with
  | Some ((start_tick, start_vel) :: rest) =>
      mkExtract (tempo_changes st)
        (mkInterval midi_num start_tick abs_tick start_vel ch :: intervals st)
        (open_set (ch, midi_num) rest (open_notes st)) (track_name st)
  | _ => st   (* orphaned NoteOff, logged *)
  end.

(** One event of the inner loop, at absolute tick [abs_tick]; [None] is
    the [?] on [String::from_utf8]. *)
Definition extract_event (st : ExtractState) (abs_tick : Z) (k : TrackEventKind)
  : option ExtractState :=
  match k with
  | MetaTempo m =>
      Some (mkExtract ((abs_tick, m) :: tempo_changes st) (intervals st)
              (open_notes st) (track_name st))
  | MetaTrackName name =>
      if String.eqb (track_name st) EmptyString then
        match name with
        | Some n => Some (mkExtract (tempo_changes st) (intervals st) (open_notes st) n)
        | None => None
        end
      else Some st
  | MidiNoteOn ch key vel =>
      if Z.eqb vel 0 then Some (close_note st ch key abs_tick)
      else
        let stack := match open_get (ch, key) (open_notes st) with
                     | Some s => s | None => [] end in
        Some (mkExtract (tempo_changes st) (intervals st)
                (open_set (ch, key) ((abs_tick, vel) :: stack) (open_notes st))
                (track_name st))
  | MidiNoteOff ch key _ => Some (close_note st ch key abs_tick)
  | MetaOther | MidiOther | OtherKind => Some st
  end.

Fixpoint extract_track (st : ExtractState) (abs_tick : Z) (track : list TrackEvent)
  : option ExtractState :=
  match track with
  | [] => Some st
  | e :: rest =>
      let t := sat_add64 abs_tick (delta e) in
      match extract_event st t (kind e) with
      | Some st' => extract_track st' t rest
      | None => None
      end
  end.

Fixpoint extract_tracks (st : ExtractState) (tracks : list (list TrackEvent))
  : option ExtractState :=
  match tracks with
  | [] => Some st
  | tr :: rest =>
      match extract_track st 0 tr with
      | Some st' => extract_tracks st' rest
      | None => None
      end
  end.

(** [tempo_changes.push((0u64, DEFAULT_MPQN))] before the loop. *)
Definition extract_init : ExtractState := mkExtract [(0, DEFAULT_MPQN)] [] [] EmptyString.

Definition max_Z (l : list Z) : Z := fold_left Z.max l 0.

(** [last_tick_estimate]: the latest end tick of the closed intervals and
    the latest tempo-change tick ([unwrap_or(0)] on each). *)
Definition last_tick_estimate (st : ExtractState) : Z :=
  Z.max (max_Z (map end_tick (intervals st))) (max_Z (map fst (tempo_changes st))).

(** The auto-closing loop over the still-open notes; each stack is walked
    bottom to top, as [Vec] iteration does. *)
Definition auto_close (st : ExtractState) (ticks_per_quarter : Z) : list NoteInterval :=
  let lte := last_tick_estimate st in
  fold_left
    (fun acc '((ch, key), stack) =>
       fold_left
         (fun acc '(start_tick, start_vel) =>
            let end_tick := if Z.ltb start_tick lte then lte
                            else wrap64 (start_tick + ticks_per_quarter) in
            mkInterval key start_tick end_tick start_vel ch :: acc)
         (rev stack) acc)
    (open_notes st) (intervals st).

(** The tempo segments: the changes sorted by tick (the source's
    [sort_unstable_by_key]; equal ticks keep their order here), then
    accumulated. *)
Definition build_segments (changes : list (Z * Z)) (ticks_per_quarter : Z)
  : list TempoSegment :=
  let sorted := sort_stable (fun a b => Z.ltb (fst a) (fst b)) changes in
  let '(_, _, _, segs) :=
    fold_left
      (fun '(last_tick, ms_accum, last_mpqn, segs) '(tick, m) =>
         if Z.ltb tick last_tick then (last_tick, ms_accum, last_mpqn, segs)
         else
           let ms_accum :=
             if Z.ltb last_tick tick
             then (ms_accum + inject_Z (tick - last_tick) * inject_Z last_mpqn
                               / inject_Z ticks_per_quarter / 1000)%Q
             else ms_accum in
           (tick, ms_accum, m, mkSegment m tick ms_accum :: segs))
      sorted (0, 0%Q, DEFAULT_MPQN, []) in
  rev segs.

(** The [ticks_to_ms] closure. *)
Definition ticks_to_ms (segs : list TempoSegment) (ticks_per_quarter tick : Z) : Q :=
  match segs with
  | [] => (inject_Z tick * inject_Z DEFAULT_MPQN / inject_Z ticks_per_quarter / 1000)%Q
  | seg0 :: _ =>
      let seg := match find (fun seg => Z.leb (seg_start_tick seg) tick) (rev segs) with
                 | Some s => s | None => seg0 end in
      (ms_at_start seg + inject_Z (tick - seg_start_tick seg) * inject_Z (mpqn seg)
                           / inject_Z ticks_per_quarter / 1000)%Q
  end.

(** The octave-folding loop: at most 8 attempts of +-12. *)
Fixpoint octave_fold (attempts_left : nat) (note_id min_id max_id : Z) : Z :=
  match attempts_left with
  | O => note_id
  | S n =>
      if Z.ltb note_id min_id || Z.ltb max_id note_id
      then octave_fold n (if Z.ltb note_id min_id then note_id + 12 else note_id - 12)
             min_id max_id
      else note_id
  end.

(** Transpose and clip one pitch; [None] is a dropped note. *)
Definition transpose_clip (midi_num transpose : Z) (clip : option (Z * Z)) : option Z :=
  let note_id := wrap32 (midi_num + transpose) in
  let note_id :=
    match clip with
    | Some (min_id, max_id) =>
        let n := octave_fold 8 note_id min_id max_id in
        if Z.ltb n min_id || Z.ltb max_id n then None else Some n
    | None => Some note_id
    end in
  match note_id with
  | Some n => if Z.leb 0 n && Z.leb n 127 then Some n else None
  | None => None
  end.

(** The body of [for interval in intervals]: [None] is a [continue]. *)
Definition interval_to_event (segs : list TempoSegment) (ticks_per_quarter transpose : Z)
  (clip : option (Z * Z)) (iv : NoteInterval) : option Event :=
  match transpose_clip (ni_midi iv) transpose clip with
  | None => None
  | Some note_id =>
      let start_ms := ticks_to_ms segs ticks_per_quarter (start_tick iv) in
      let end_ms := ticks_to_ms segs ticks_per_quarter (end_tick iv) in
      if Qle_bool end_ms start_ms then None
      else if Qlt_le_dec (end_ms - start_ms) EPSILON_MS then None
      else Some (mkEvent (mkNote note_id (ni_velocity iv)) start_ms (end_ms - start_ms)%Q)
  end.

Definition Qlt_bool (a b : Q) : bool := if Qlt_le_dec a b then true else false.

(** [raw_events.sort_by(|a, b| a.time_ms.total_cmp(&b.time_ms))] *)
Definition sort_by_time (l : list Event) : list Event :=
  sort_stable (fun a b => Qlt_bool (time_ms a) (time_ms b)) l.

(** The final cull. *)
Definition cull_final (l : list Event) : list Event :=
  filter (fun e => if Qlt_le_dec (duration_ms e) EPSILON_MS then false else true) l.

(** [midi_bytes_to_song] after [Smf::parse], returning the song's events;
    [None] is an [Err] or a panic. *)
Definition midi_tracks_to_song (timing : Timing) (tracks : list (list TrackEvent))
  (transpose : Z) (policy : PolyPolicy) (merge : bool) (clip : option (Z * Z))
  : option (list Event) :=
  match timing with
  | Timecode => None
  | Metrical ticks_per_quarter =>
      match extract_tracks extract_init tracks with
      | None => None
      | Some st =>
          let all_intervals := rev (auto_close st ticks_per_quarter) in
          let segs := build_segments (rev (tempo_changes st)) ticks_per_quarter in
          let raw_events :=
            flat_map (fun iv => match interval_to_event segs ticks_per_quarter transpose clip iv with
                                | Some e => [e] | None => [] end) all_intervals in
          match reduce_to_monophonic (sort_by_time raw_events) policy merge with
          | None => None
          | Some reduced => Some (cull_final reduced)
          end
      end
  end.

(** A one-track file: A4 for a quarter note, then F5 for a quarter note. *)
Definition sample_track : list TrackEvent :=
  [mkTrackEvent 0 (MidiNoteOn 0 69 100); mkTrackEvent 480 (MidiNoteOff 0 69 0);
   mkTrackEvent 0 (MidiNoteOn 0 77 90); mkTrackEvent 480 (MidiNoteOff 0 77 0)].

(** The timeline's last observed tick, in the words of the spec: the
    latest absolute tick of any event of any track. *)
Fixpoint track_ticks (abs_tick : Z) (track : list TrackEvent) : list Z :=
  match track with
  | [] => []
  | e :: rest =>
      let t := sat_add64 abs_tick (delta e) in t :: track_ticks t rest
  end.

Definition last_observed_tick (tracks : list (list TrackEvent)) : Z :=
  max_Z (flat_map (track_ticks 0) tracks).

(** Note 60 from tick 0 to 100, then note 62 from tick 200, never released. *)
Definition unclosed_track : list TrackEvent :=
  [mkTrackEvent 0 (MidiNoteOn 0 60 100); mkTrackEvent 100 (MidiNoteOff 0 60 0);
   mkTrackEvent 100 (MidiNoteOn 0 62 100)].

(* ------------------------------------------------------------------ *)
(** ** The input engine: [InputEngine::key_press] (engine/mod.rs) *)

(** A key combination that plays a note ([model::mappings::Input]). *)
Record Input := mkInput { keys : list Z; note_label : string }.

(** [VK_NUMPAD5]. *)
Definition PLAY_KEY : Z := 101.

Definition play_input : Input := mkInput [PLAY_KEY] "play_key".

(** The other virtual-key codes of [model::mappings] (Windows). *)
Definition DIR_1_RIGHT : Z := 102.      (* VK_NUMPAD6 *)
Definition DIR_2_DOWNRIGHT : Z := 99.   (* VK_NUMPAD3 *)
Definition DIR_3_DOWN : Z := 98.        (* VK_NUMPAD2 *)
Definition DIR_4_DOWNLEFT : Z := 97.    (* VK_NUMPAD1 *)
Definition DIR_5_LEFT : Z := 100.       (* VK_NUMPAD4 *)
Definition DIR_6_UPLEFT : Z := 103.     (* VK_NUMPAD7 *)
Definition DIR_7_UP : Z := 104.         (* VK_NUMPAD8 *)
Definition DIR_8_UPRIGHT : Z := 105.    (* VK_NUMPAD9 *)
Definition OCTAVE_MODIFIER : Z := 49.   (* VK_1 *)
Definition SEMITONE_MODIFIER : Z := 51. (* VK_3 *)

(** [MAPPINGS]: the pitch each key combination plays. *)
Definition MAPPINGS : list (Z * Input) :=
  [
   (69, mkInput [OCTAVE_MODIFIER; DIR_1_RIGHT] "A4 (69)");
   (70, mkInput [OCTAVE_MODIFIER; DIR_1_RIGHT; SEMITONE_MODIFIER] "A#4 (70)");
   (71, mkInput [OCTAVE_MODIFIER; DIR_2_DOWNRIGHT] "B4 (71)");
   (72, mkInput [OCTAVE_MODIFIER; DIR_2_DOWNRIGHT; SEMITONE_MODIFIER] "C5 (72)");
   (73, mkInput [OCTAVE_MODIFIER; DIR_3_DOWN] "C#5 (73)");
   (74, mkInput [OCTAVE_MODIFIER; DIR_3_DOWN; SEMITONE_MODIFIER] "D5 (74)");
   (75, mkInput [OCTAVE_MODIFIER; DIR_4_DOWNLEFT; SEMITONE_MODIFIER] "D#5 (75)");
   (76, mkInput [OCTAVE_MODIFIER; DIR_5_LEFT] "E5 (76)");
   (77, mkInput [OCTAVE_MODIFIER; DIR_5_LEFT; SEMITONE_MODIFIER] "F5 (77)");
   (78, mkInput [OCTAVE_MODIFIER; DIR_6_UPLEFT] "F#5 (78)");
   (79, mkInput [OCTAVE_MODIFIER; DIR_6_UPLEFT; SEMITONE_MODIFIER] "G5 (79)");
   (80, mkInput [OCTAVE_MODIFIER; DIR_7_UP] "G#5 (80)");
   (81, mkInput [DIR_1_RIGHT] "A5 (81)");
   (82, mkInput [DIR_1_RIGHT; SEMITONE_MODIFIER] "A#5 (82)");
   (83, mkInput [DIR_2_DOWNRIGHT] "B5 (83)");
   (84, mkInput [DIR_2_DOWNRIGHT; SEMITONE_MODIFIER] "C6 (84)");
   (85, mkInput [DIR_3_DOWN] "C#6 (85)");
   (86, mkInput [DIR_3_DOWN; SEMITONE_MODIFIER] "D6 (86)");
   (87, mkInput [DIR_4_DOWNLEFT; SEMITONE_MODIFIER] "D#6 (87)");
   (88, mkInput [DIR_5_LEFT] "E6 (88)");
   (89, mkInput [DIR_5_LEFT; SEMITONE_MODIFIER] "F6 (89)");
   (90, mkInput [DIR_6_UPLEFT] "F#6 (90)");
   (91, mkInput [DIR_6_UPLEFT; SEMITONE_MODIFIER] "G6 (91)");
   (92, mkInput [DIR_7_UP] "G#6 (92)");
   (93, mkInput [DIR_8_UPRIGHT] "A6 (93)")
  ].

(** [input_for_midi]: the first entry of [MAPPINGS] for the pitch. *)
Definition input_for_midi (midi_num : Z) : option Input :=
  option_map snd (find (fun '(m, _) => Z.eqb m midi_num) MAPPINGS).

(** The engine calls [key_press] makes, in the order it makes them; a
    [Sleep] carries its duration in milliseconds. *)
Inductive Action :=
| KeyDown (i : Input)
| KeyUp (i : Input)
| Sleep (ms : Q).

(** A computation of the engine: it reads the trace of calls made so far,
    appends its own, and returns [None] for an [Err]. *)
Definition EngineM (A : Type) : Type := list Action -> option A * list Action.

Definition eret {A} (a : A) : EngineM A := fun tr => (Some a, tr).
Definition efail {A} : EngineM A := fun tr => (None, tr).
Definition ebind {A B} (m : EngineM A) (k : A -> EngineM B) : EngineM B :=
  fun tr => match m tr with
            | (Some a, tr') => k a tr'
            | (None, tr') => (None, tr')
            end.

Notation "x <- m ;; k" := (ebind m (fun x => k))
  (at level 61, m at next level, right associativity).
Notation "m ;;; k" := (ebind m (fun _ => k))
  (at level 61, right associativity).

Section Engine.
(** Whether the platform accepts a key call, given the calls made before
    it: the concrete engine may fail at any call. *)
Variable key_result : list Action -> Action -> bool.

Definition key_call (a : Action) : EngineM unit :=
  fun tr => (if key_result tr a then Some tt else None, tr ++ [a]).

Definition key_down (i : Input) : EngineM unit := key_call (KeyDown i).
Definition key_up (i : Input) : EngineM unit := key_call (KeyUp i).
Definition sleep (ms : Q) : EngineM unit := fun tr => (Some tt, tr ++ [Sleep ms]).

(** The hold and release times, after the articulation. *)
Definition articulate (hold_ms articulation : Q) : Q * Q :=
  let '(final_hold_ms, release_ms) :=
    if Qlt_bool 0 articulation && Qlt_bool articulation 1
    then (hold_ms * articulation, hold_ms * (1 - articulation))%Q
    else (hold_ms, 0%Q) in
  if Qle_bool final_hold_ms 0 then (hold_ms, 0%Q) else (final_hold_ms, release_ms).

Definition key_press (input : Input) (hold_ms articulation : Q) : EngineM unit :=
  if Qle_bool hold_ms 0 then efail else
  let '(final_hold_ms, release_ms) := articulate hold_ms articulation in
  key_down input ;;;
  sleep 1 ;;;
  key_down play_input ;;;
  sleep final_hold_ms ;;;
  key_up play_input ;;;
  sleep 1 ;;;
  key_up input ;;;
  (if Qlt_bool 0 release_ms then sleep release_ms else eret tt).

(** [all_keys_up]: [key_up] on every input of [MAPPINGS], in order,
    stopping at the first [Err]. *)
Fixpoint keys_up_from (l : list (Z * Input)) : EngineM unit :=
  match l with
  | [] => eret tt
  | (_, input) :: l' => key_up input ;;; keys_up_from l'
  end.

Definition all_keys_up : EngineM unit := keys_up_from MAPPINGS.
End Engine.

(** The complete sequence of calls of one [key_press]. *)
Definition envelope (input : Input) (final_hold_ms release_ms : Q) : list Action :=
  [KeyDown input; Sleep 1; KeyDown play_input; Sleep final_hold_ms;
   KeyUp play_input; Sleep 1; KeyUp input] ++
  (if Qlt_bool 0 release_ms then [Sleep release_ms] else []).

(** An engine that accepts every call, and one that rejects the play key. *)
Definition all_ok (_ : list Action) (_ : Action) : bool := true.
Definition play_key_fails (_ : list Action) (a : Action) : bool :=
  match a with KeyDown i => negb (String.eqb (note_label i) "play_key") | _ => true end.

(* ------------------------------------------------------------------ *)
(** ** The player: [Player::play] and [Player::stop] (player.rs) *)

(** A scheduled key press ([player::ScheduledEvent]). *)
Record ScheduledEvent := mkScheduled {
  se_time_ms : Q; se_duration_ms : Q; se_input : Input }.

(** The sending half of the control channel: only its presence is read. *)
Definition Sender : Type := unit.

(** The handle of the worker thread, with whether that thread has exited. *)
Record JoinHandle := mkHandle { finished : bool }.

(** The three mutex-protected fields of [Player]. *)
Record Player := mkPlayer {
  schedule : list ScheduledEvent;
  control_tx : option Sender;
  worker_handle : option JoinHandle }.

Inductive PlayerError :=
| PlaybackAlreadyRunning  (* "Playback already running..!" *)
| NoSongLoaded            (* "No song loaded..!" *)
| NoWorkerRunning.        (* "No worker is running playback..!" *)

Inductive PlayerResult := Ok | Err (e : PlayerError).

Definition player_new : Player := mkPlayer [] None None.

(** The store at the end of [load_song] (the mapping of notes to inputs and
    the sort by time are not modelled: the schedule is given). *)
Definition load_schedule (p : Player) (events : list ScheduledEvent) : Player :=
  mkPlayer events (control_tx p) (worker_handle p).

(** [play join]: with [join] the worker runs to its normal exit and is
    joined inside the call, and its handle is dropped; otherwise the handle
    of the running worker is stored. *)
Definition play (p : Player) (join : bool) : Player * PlayerResult :=
  match worker_handle p with
  | Some _ => (p, Err PlaybackAlreadyRunning)
  | None =>
      match schedule p with
      | [] => (p, Err NoSongLoaded)
      | _ :: _ =>
          if join then (mkPlayer (schedule p) (Some tt) (worker_handle p), Ok)
          else (mkPlayer (schedule p) (Some tt) (Some (mkHandle false)), Ok)
      end
  end.

(** The worker thread exits normally after its last event; the [Player]'s
    fields are not touched, only the stored handle sees it. *)
Definition worker_exits (p : Player) : Player :=
  match worker_handle p with
  | Some _ => mkPlayer (schedule p) (control_tx p) (Some (mkHandle true))
  | None => p
  end.

(** [stop]: take the sender; without one fail, else send [Stop], take the
    handle and join the worker. *)
Definition stop (p : Player) : Player * PlayerResult :=
  match control_tx p with
  | None => (p, Err NoWorkerRunning)
  | Some _ => (mkPlayer (schedule p) None None, Ok)
  end.

(** Whether a worker thread of this player is alive (outside a blocking
    [play] call). *)
Definition worker_running (p : Player) : bool :=
  match worker_handle p with Some h => negb (finished h) | None => false end.

Definition sample_schedule : list ScheduledEvent :=
  [mkScheduled 0 500 (mkInput [49; 102] "A4 (69)")].

(** [Player::load_song]: each event with a mapping becomes a scheduled
    key press (the others are skipped with a warning), then the schedule is
    sorted by time with the stable [sort_by] (no NaN times here, so
    [partial_cmp] never falls back to [Equal]). *)
Definition schedule_of_events (events : list Event) : list ScheduledEvent :=
  flat_map (fun e => match input_for_midi (midi (note e)) with
                     | Some input => [mkScheduled (time_ms e) (duration_ms e) input]
                     | None => []
                     end) events.

Definition load_song (p : Player) (events : list Event) : Player :=
  load_schedule p
    (sort_stable (fun a b => Qlt_bool (se_time_ms a) (se_time_ms b))
       (schedule_of_events events)).

(** The calls a caller makes on one [Player], one after the other (calls
    that overlap in time, as from the Ctrl-C handler, are not modelled). *)
Inductive PlayerOp :=
| OpLoadSong (events : list Event)
| OpPlay (join : bool)
| OpStop
| OpWorkerExits.

Definition player_step (p : Player) (op : PlayerOp) : Player :=
  match op with
  | OpLoadSong events => load_song p events
  | OpPlay join => fst (play p join)
  | OpStop => fst (stop p)
  | OpWorkerExits => worker_exits p
  end.

Definition run_player (p : Player) (ops : list PlayerOp) : Player :=
  fold_left player_step ops p.

(* ------------------------------------------------------------------ *)
(** ** Command-line parsing (util.rs) *)

(** [str::to_lowercase] on the bytes of the argument: ASCII letters are
    lowered and other bytes kept. The Unicode mappings of the source only
    differ on non-ASCII characters, and none of those lowers to a string of
    ASCII letters that the matches below compare against. *)
Definition ascii_to_lower (c : Ascii.ascii) : Ascii.ascii :=
  let n := Ascii.nat_of_ascii c in
  if Nat.leb 65 n && Nat.leb n 90 then Ascii.ascii_of_nat (n + 32) else c.

Fixpoint to_lowercase (s : string) : string :=
  match s with
  | EmptyString => EmptyString
  | String c s' => String (ascii_to_lower c) (to_lowercase s')
  end.

(** [f64::clamp] (a NaN argument, which stays NaN, has no rational model). *)
Definition clamp (x lo hi : Q) : Q :=
  let x := if Qlt_bool x lo then lo else x in
  if Qlt_bool hi x then hi else x.

Definition parse_articulation (input : string) (custom : option Q) : Q :=
  let s := to_lowercase input in
  if String.eqb s "t" || String.eqb s "tenuto" then 1
  else if String.eqb s "s" || String.eqb s "staccato" then 1 # 2
  else if String.eqb s "ss" || String.eqb s "staccatissimo" then 1 # 4
  else if String.eqb s "p" || String.eqb s "portato" || String.eqb s "portamento" then 3 # 4
  else if String.eqb s "c" || String.eqb s "custom" then
    match custom with
    | Some hold_perc => clamp hold_perc 0 1
    | None => 3 # 4
    end
  else 3 # 4.

Definition parse_policy (input : string) : PolyPolicy :=
  let s := to_lowercase input in
  if String.eqb s "h" || String.eqb s "highest" then Highest
  else if String.eqb s "lw" || String.eqb s "lowest" then Lowest
  else if String.eqb s "lu" || String.eqb s "loudest" then Loudest
  else if String.eqb s "a" || String.eqb s "d" || String.eqb s "auto"
          || String.eqb s "densest" then Densest
  else Highest.

(** The total time slept in a sequence of engine calls, in milliseconds. *)
Fixpoint sleep_total (tr : list Action) : Q :=
  match tr with
  | [] => 0
  | Sleep ms :: tr' => ms + sleep_total tr'
  | _ :: tr' => sleep_total tr'
  end.

(* ------------------------------------------------------------------ *)
(** ** Predicates used by the proofs *)

Definition time_le (a b : Point) : Prop := (pt_time_ms a <= pt_time_ms b)%Q.

(** Oldest-first: positive durations, each event ends no later than the
    next one starts. *)
Fixpoint chain (l : list Event) : Prop :=
  match l with
  | [] => True
  | [e] => (0 < duration_ms e)%Q
  | e1 :: ((e2 :: _) as l') =>
      (0 < duration_ms e1)%Q /\ (end_ms e1 <= time_ms e2)%Q /\ chain l'
  end.

(** The same for a newest-first list. *)
Fixpoint rchain (l : list Event) : Prop :=
  match l with
  | [] => True
  | [e] => (0 < duration_ms e)%Q
  | e2 :: ((e1 :: _) as l') =>
      (0 < duration_ms e2)%Q /\ (end_ms e1 <= time_ms e2)%Q /\ rchain l'
  end.

(** The instant no event emitted so far may end after. *)
Definition frontier (st : SweepState) (b : Q) : Q :=
  match current_start st with Some cs => cs | None => b end.

(** [b] is the time of the last processed point. *)
Definition sweep_inv (st : SweepState) (b : Q) : Prop :=
  rchain (result st) /\
  (forall e, hd_error (result st) = Some e -> (end_ms e <= frontier st b)%Q) /\
  (forall cs, current_start st = Some cs -> (cs <= b)%Q).

Example reduce_highest_test :
  option_map (map shape)
    (reduce_to_monophonic [ev 69 255 0 1000; ev 77 255 500 1000] Highest false)
  = Some [(69, 0%Q, 500%Q); (77, 500%Q, 1000%Q)].
Proof. vm_compute. reflexivity. Qed.

Example reduce_lowest_test :
  option_map (map shape)
    (reduce_to_monophonic [ev 77 255 0 1000; ev 69 255 500 1000] Lowest false)
  = Some [(77, 0%Q, 500%Q); (69, 500%Q, 1000%Q)].
Proof. vm_compute. reflexivity. Qed.

Example reduce_loudest_test :
  option_map (map shape)
    (reduce_to_monophonic [ev 77 128 0 1000; ev 69 255 500 1000] Loudest false)
  = Some [(77, 0%Q, 500%Q); (69, 500%Q, 1000%Q)].
Proof. vm_compute. reflexivity. Qed.

Example merge_adjacent_test :
  option_map (map shape)
    (reduce_to_monophonic [ev 60 255 0 500; ev 60 255 501 500] Lowest true)
  = Some [(60, 0%Q, 1001%Q)].
Proof. vm_compute. reflexivity. Qed.

(* ------------------------------------------------------------------ *)
(** ** Sortedness of the boundary points *)

Section StableSortSorted.
Context {A : Type} (lt : A -> A -> bool) (R : A -> A -> Prop).
Hypothesis lt_true : forall x y, lt x y = true -> R x y.
Hypothesis lt_false : forall x y, lt x y = false -> R y x.

Lemma insert_stable_hdrel (y x : A) (l : list A) :
  HdRel R y l -> R y x -> HdRel R y (insert_stable lt x l).
Proof.
  intros Hl Hyx. destruct l as [|z l']; simpl.
  - constructor. exact Hyx.
  - inversion Hl; subst. destruct (lt x z); constructor; assumption.
Qed.

Lemma insert_stable_sorted (x : A) (l : list A) :
  Sorted R l -> Sorted R (insert_stable lt x l).
Proof.
  induction l as [|y l' IH]; intros Hs; simpl.
  - repeat constructor.
  - inversion Hs as [|? ? Hs' Hhd]; subst.
    case_eq (lt x y); intros Hxy.
    + constructor; [exact Hs | constructor; apply lt_true; exact Hxy].
    + constructor; [apply IH; exact Hs'|].
      apply insert_stable_hdrel; [exact Hhd | apply lt_false; exact Hxy].
Qed.

Lemma sort_stable_sorted (l : list A) : Sorted R (sort_stable lt l).
Proof.
  unfold sort_stable.
  assert (Hgen : forall acc, Sorted R acc ->
            Sorted R (fold_left (fun acc x => insert_stable lt x acc) l acc)).
  { induction l as [|x l' IH]; intros acc Hacc; simpl.
    - exact Hacc.
    - apply IH, insert_stable_sorted, Hacc. }
  apply Hgen. constructor.
Qed.
End StableSortSorted.


Lemma sorted_points_sorted (events : list Event) :
  Sorted time_le (sorted_points events).
Proof.
  apply sort_stable_sorted; unfold point_lt, time_le; intros x y H.
  - destruct (Qcompare (pt_time_ms x) (pt_time_ms y)) eqn:E; try discriminate.
    + apply Qeq_alt in E. rewrite E. apply Qle_refl.
    + apply Qlt_le_weak. apply Qlt_alt. exact E.
  - destruct (Qcompare (pt_time_ms x) (pt_time_ms y)) eqn:E; try discriminate.
    + apply Qeq_alt in E. rewrite E. apply Qle_refl.
    + apply Qlt_le_weak. apply Qgt_alt. exact E.
Qed.

(* ------------------------------------------------------------------ *)
(** ** Chains of non-overlapping events *)



Lemma chain_snoc (l : list Event) (a b : Event) :
  chain (l ++ [a]) -> (0 < duration_ms b)%Q -> (end_ms a <= time_ms b)%Q ->
  chain ((l ++ [a]) ++ [b]).
Proof.
  induction l as [|x l' IH]; intros Hc Hb Hab.
  - simpl in *. tauto.
  - destruct l' as [|y l'']; simpl in *.
    + tauto.
    + destruct Hc as [H1 [H2 H3]]. repeat split; try assumption.
      apply IH; assumption.
Qed.

Lemma rchain_chain_rev (l : list Event) : rchain l -> chain (rev l).
Proof.
  induction l as [|e2 l' IH]; intros H.
  - exact I.
  - destruct l' as [|e1 l''].
    + exact H.
    + destruct H as [Hd [Hlink Hr]].
      change (rev (e2 :: e1 :: l'')) with ((rev l'' ++ [e1]) ++ [e2]).
      apply chain_snoc; try assumption. apply IH. exact Hr.
Qed.

Lemma chain_nth (l : list Event) (i : nat) (e1 e2 : Event) :
  chain l -> nth_error l i = Some e1 -> nth_error l (S i) = Some e2 ->
  (0 < duration_ms e1)%Q /\ (end_ms e1 <= time_ms e2)%Q.
Proof.
  revert i. induction l as [|x l' IH]; intros i Hc H1 H2.
  - destruct i; discriminate.
  - destruct l' as [|y l''].
    + destruct i; simpl in H2; [discriminate | destruct i; discriminate].
    + destruct Hc as [Hd [Hlink Hc']]. destruct i as [|i].
      * simpl in H1, H2. injection H1 as <-. injection H2 as <-. auto.
      * apply (IH i); assumption.
Qed.

(* ------------------------------------------------------------------ *)
(** ** Invariant of the sweep *)



Lemma rchain_cons (e : Event) (l : list Event) :
  rchain l -> (0 < duration_ms e)%Q ->
  (forall e', hd_error l = Some e' -> (end_ms e' <= time_ms e)%Q) ->
  rchain (e :: l).
Proof.
  intros Hl Hd Hhd. destruct l as [|e' l']; simpl.
  - exact Hd.
  - repeat split; try assumption. apply Hhd. reflexivity.
Qed.

Lemma sweep_step_inv (policy : PolyPolicy) (st st' : SweepState) (pt : Point) (b : Q) :
  sweep_inv st b -> (b <= pt_time_ms pt)%Q ->
  sweep_step policy st pt = Some st' -> sweep_inv st' (pt_time_ms pt).
Proof.
  intros [Hr [Hhd Hcs]] Hb Hstep.
  unfold sweep_step in Hstep.
  destruct (if is_start pt then _ else _) as [act lookup].
  destruct (choose policy act lookup) as [chosen|]; [|discriminate].
  destruct (option_Z_eqb chosen (current_note st)).
  - injection Hstep as <-. unfold sweep_inv, frontier in *; simpl.
    repeat split; [exact Hr | |].
    + intros e He. specialize (Hhd e He).
      destruct (current_start st); [exact Hhd | eapply Qle_trans; eassumption].
    + intros cs Hc. specialize (Hcs cs Hc). eapply Qle_trans; eassumption.
  - (* the emitted list and its head bound *)
    set (res := match current_note st, current_start st with
                | Some cn, Some cs => _ | _, _ => _ end) in Hstep.
    assert (Hres : rchain res /\
                   forall e, hd_error res = Some e -> (end_ms e <= pt_time_ms pt)%Q).
    { subst res. unfold frontier in Hhd.
      destruct (current_note st) as [cn|]; destruct (current_start st) as [cs|] eqn:Ecs;
        try (split; [exact Hr | intros e He; eapply Qle_trans;
                               [apply Hhd; exact He | exact Hb]]).
      - destruct (Qlt_le_dec (cs + EPSILON_MS) (pt_time_ms pt)) as [Hlt|Hge].
        + split.
          * apply rchain_cons; [exact Hr | simpl; unfold EPSILON_MS in Hlt; lra |].
            intros e He. simpl. apply Hhd. exact He.
          * intros e He. simpl in He. injection He as <-.
            unfold end_ms; simpl. lra.
        + split; [exact Hr|]. intros e He.
          specialize (Hcs cs eq_refl). specialize (Hhd e He). lra.
      - split; [exact Hr|]. intros e He.
        specialize (Hcs cs eq_refl). specialize (Hhd e He). lra. }
    destruct Hres as [Hres1 Hres2].
    destruct chosen as [ch|]; injection Hstep as <-;
      unfold sweep_inv, frontier; simpl; repeat split; try exact Hres1;
      try exact Hres2.
    + intros cs Hc. injection Hc as <-. apply Qle_refl.
    + intros cs Hc. discriminate.
Qed.

Lemma sweep_inv_run (policy : PolyPolicy) (pts : list Point) :
  forall st st' b,
  Sorted time_le pts ->
  (forall p, hd_error pts = Some p -> (b <= pt_time_ms p)%Q) ->
  sweep_inv st b -> sweep policy st pts = Some st' ->
  exists b', sweep_inv st' b'.
Proof.
  induction pts as [|p pts' IH]; intros st st' b Hs Hhd Hinv Hrun; simpl in Hrun.
  - injection Hrun as <-. exists b. exact Hinv.
  - destruct (sweep_step policy st p) as [st1|] eqn:Estep; [|discriminate].
    inversion Hs as [|? ? Hs' Hrel]; subst.
    apply (IH st1 st' (pt_time_ms p)); try assumption.
    + intros q Hq. destruct pts' as [|q' ?]; [discriminate|].
      simpl in Hq. injection Hq as <-. inversion Hrel; subst. assumption.
    + eapply sweep_step_inv; [exact Hinv | | exact Estep].
      apply Hhd. reflexivity.
Qed.

Lemma sweep_result_rchain (policy : PolyPolicy) (events : list Event) (st : SweepState) :
  sweep policy sweep_init (sorted_points events) = Some st -> rchain (result st).
Proof.
  intros Hrun.
  destruct (sweep_inv_run policy (sorted_points events) sweep_init st
              (match sorted_points events with p :: _ => pt_time_ms p | [] => 0%Q end))
    as [b' [Hr _]].
  - apply sorted_points_sorted.
  - intros p Hp. destruct (sorted_points events); [discriminate|].
    simpl in Hp. injection Hp as <-. apply Qle_refl.
  - unfold sweep_inv; simpl. repeat split; intros; discriminate.
  - exact Hrun.
  - exact Hr.
Qed.

(* ------------------------------------------------------------------ *)
(** ** The merge pass keeps the chain *)

Lemma merge_fold_rchain (merge : bool) (l : list Event) :
  forall acc,
  chain l -> rchain acc ->
  (forall a e, hd_error acc = Some a -> hd_error l = Some e -> (end_ms a <= time_ms e)%Q) ->
  rchain (fold_left (merge_step merge) l acc).
Proof.
  induction l as [|e l' IH]; intros acc Hl Hacc Hlink; simpl.
  - exact Hacc.
  - assert (He : (0 < duration_ms e)%Q /\
                 forall e', hd_error l' = Some e' -> (end_ms e <= time_ms e')%Q).
    { destruct l' as [|e' l'']; simpl in Hl.
      - split; [exact Hl | intros; discriminate].
      - destruct Hl as [H1 [H2 _]]. split; [exact H1|].
        intros x Hx. injection Hx as <-. exact H2. }
    destruct He as [Hdpos Hnext].
    assert (Hl' : chain l').
    { destruct l' as [|e' l'']; [exact I | apply Hl]. }
    apply IH; [exact Hl' | |].
    + unfold merge_step. destruct acc as [|a rest].
      * exact Hdpos.
      * destruct (merge && note_eqb (note a) (note e)
                  && Qle_bool (Qabs (end_ms a - time_ms e)) EPSILON_MS).
        -- assert (Ha : (0 < duration_ms a)%Q /\
                        forall r, hd_error rest = Some r -> (end_ms r <= time_ms a)%Q).
           { destruct rest as [|r rest']; simpl in Hacc.
             - split; [exact Hacc | intros; discriminate].
             - destruct Hacc as [H1 [H2 _]]. split; [exact H1|].
               intros x Hx. injection Hx as <-. exact H2. }
           destruct Ha as [Hapos Hrest].
           apply rchain_cons.
           ++ destruct rest as [|r rest']; [exact I | apply Hacc].
           ++ simpl. pose proof (Q.le_max_l (end_ms a) (end_ms e)) as Hm.
              unfold end_ms in *. lra.
           ++ intros r Hr. simpl. apply Hrest. exact Hr.
        -- apply rchain_cons; [exact Hacc | exact Hdpos |].
           intros a' Ha'. apply Hlink; [exact Ha' | reflexivity].
    + intros a e' Ha He'. specialize (Hnext e' He').
      unfold merge_step in Ha. destruct acc as [|a0 rest].
      * simpl in Ha. injection Ha as <-. exact Hnext.
      * destruct (merge && note_eqb (note a0) (note e)
                  && Qle_bool (Qabs (end_ms a0 - time_ms e)) EPSILON_MS).
        -- simpl in Ha. injection Ha as <-.
           specialize (Hlink a0 e eq_refl eq_refl).
           assert (Hmax : (Qmax (end_ms a0) (end_ms e) <= time_ms e')%Q).
           { apply Q.max_lub; [|exact Hnext].
             unfold end_ms in *. lra. }
           unfold end_ms in *; simpl. lra.
        -- simpl in Ha. injection Ha as <-. exact Hnext.
Qed.

Lemma merge_pass_chain (merge : bool) (l : list Event) :
  chain l -> chain (merge_pass merge l).
Proof.
  intros Hl. unfold merge_pass. apply rchain_chain_rev, merge_fold_rchain;
    [exact Hl | exact I | intros; discriminate].
Qed.

Lemma reduce_chain (events : list Event) (policy : PolyPolicy) (merge : bool)
  (out : list Event) :
  reduce_to_monophonic events policy merge = Some out -> chain out.
Proof.
  unfold reduce_to_monophonic. destruct events as [|e0 events'].
  - intros H. injection H as <-. exact I.
  - destruct (sweep policy sweep_init (sorted_points (e0 :: events'))) as [st|] eqn:Erun;
      [|discriminate].
    intros H. injection H as <-. apply merge_pass_chain, rchain_chain_rev.
    eapply sweep_result_rchain. exact Erun.
Qed.

(* ------------------------------------------------------------------ *)
(** ** The [Loudest] choice *)

Section KeysAgree.
Context {V W : Type}.

Lemma bt_keys_insert (k : Z) (v : V) (w : W) (m1 : list (Z * V)) (m2 : list (Z * W)) :
  bt_keys m1 = bt_keys m2 -> bt_keys (bt_insert k v m1) = bt_keys (bt_insert k w m2).
Proof.
  revert m2. induction m1 as [|[k1 v1] m1' IH]; intros [|[k2 w2] m2'] H;
    simpl in *; try discriminate; [reflexivity|].
  injection H as -> H'.
  destruct (Z.ltb k k2); [simpl; rewrite H'; reflexivity|].
  destruct (Z.eqb k k2); simpl; [rewrite H'; reflexivity|].
  f_equal. apply IH. exact H'.
Qed.

Lemma bt_keys_remove (k : Z) (m1 : list (Z * V)) (m2 : list (Z * W)) :
  bt_keys m1 = bt_keys m2 -> bt_keys (bt_remove k m1) = bt_keys (bt_remove k m2).
Proof.
  revert m2. induction m1 as [|[k1 v1] m1' IH]; intros [|[k2 w2] m2'] H;
    simpl in *; try discriminate; [reflexivity|].
  injection H as -> H'.
  destruct (Z.eqb k k2); simpl; [exact H'|].
  f_equal. apply IH. exact H'.
Qed.
End KeysAgree.

Lemma bt_get_keys {V : Type} (n : Z) (m : list (Z * V)) :
  In n (bt_keys m) -> exists v, bt_get n m = Some v.
Proof.
  induction m as [|[k v] m' IH]; simpl; intros H; [contradiction|].
  destruct (Z.eqb n k) eqn:E; [eauto|].
  destruct H as [->|H]; [rewrite Z.eqb_refl in E; discriminate | exact (IH H)].
Qed.

Lemma bt_get_in_keys {V : Type} (n : Z) (v : V) (m : list (Z * V)) :
  bt_get n m = Some v -> In n (bt_keys m).
Proof.
  induction m as [|[k v'] m' IH]; simpl; intros H; [discriminate|].
  destruct (Z.eqb n k) eqn:E; [left; symmetry; apply Z.eqb_eq; exact E|].
  right. apply IH. exact H.
Qed.


Lemma max_by_vel_step_spec (acc : option (Z * Z)) (x : Z * Z) :
  exists av, max_by_vel_step acc x = Some av /\ fst x <= fst av /\
    (forall y, acc = Some y -> fst y <= fst av) /\ (av = x \/ acc = Some av).
Proof.
  destruct acc as [y|]; simpl.
  - destruct (Z.ltb (fst x) (fst y)) eqn:E.
    + apply Z.ltb_lt in E. exists y. repeat split; auto; [lia|].
      intros y' Hy'. injection Hy' as <-. lia.
    + apply Z.ltb_ge in E. exists x. repeat split; auto; [lia|].
      intros y' Hy'. injection Hy' as <-. lia.
  - exists x. repeat split; auto; [lia | intros; discriminate].
Qed.

Lemma max_by_vel_fold (l : list (Z * Z)) :
  forall acc,
  match fold_left max_by_vel_step l acc with
  | None => acc = None /\ l = []
  | Some m => (In m l \/ acc = Some m) /\
              (forall x, In x l -> fst x <= fst m) /\
              (forall y, acc = Some y -> fst y <= fst m)
  end.
Proof.
  induction l as [|x l' IH]; intros acc; simpl.
  - destruct acc as [y|]; [|tauto].
    repeat split; auto.
    + intros x [].
    + intros y' Hy'. injection Hy' as ->. lia.
  - destruct (max_by_vel_step_spec acc x) as [av [Hav [Hx [Hy Hor]]]].
    specialize (IH (max_by_vel_step acc x)). rewrite Hav in IH |- *.
    destruct (fold_left max_by_vel_step l' (Some av)) as [m|].
    + destruct IH as [Hin [Hall Hacc]].
      specialize (Hacc av eq_refl).
      repeat split.
      * destruct Hin as [Hin|Hin]; [left; simpl; right; exact Hin|].
        injection Hin as ->. destruct Hor as [->|Hor]; [left; simpl; left; reflexivity | right; exact Hor].
      * intros z [<-|Hz]; [lia | apply Hall; exact Hz].
      * intros y Hacc'. specialize (Hy y Hacc'). lia.
    + destruct IH as [Hn _]. discriminate.
Qed.

Lemma choose_loudest_max (act : list (Z * Q)) (lookup : list (Z * Z)) :
  bt_keys act = bt_keys lookup ->
  match choose Loudest act lookup with
  | Some (Some p) =>
      exists vp, In p (bt_keys act) /\ bt_get p lookup = Some vp /\
      forall q vq, In q (bt_keys act) -> bt_get q lookup = Some vq -> vq <= vp
  | Some None => act = []
  | None => False
  end.
Proof.
  intros Hk. unfold choose, max_by_vel.
  set (l := flat_map _ (bt_keys act)).
  assert (Hl : forall x, In x l <-> In (snd x) (bt_keys act) /\
                                   bt_get (snd x) lookup = Some (fst x)).
  { intros [v n]. subst l. rewrite in_flat_map. simpl. split.
    - intros [n' [Hn' Hx]]. destruct (bt_get n' lookup) eqn:E; [|destruct Hx].
      destruct Hx as [Hx|[]]. injection Hx as -> ->. auto.
    - intros [Hn Hg]. exists n. rewrite Hg. simpl. auto. }
  pose proof (max_by_vel_fold l None) as Hm.
  destruct (fold_left max_by_vel_step l None) as [[vm pm]|] eqn:Ef; simpl.
  - destruct Hm as [[Hin|Hin] [Hall _]]; [|discriminate].
    apply Hl in Hin. simpl in Hin. destruct Hin as [Hin Hg].
    exists vm. repeat split; try assumption.
    intros q vq Hq Hgq. apply (Hall (vq, q)). apply Hl. simpl. auto.
  - destruct Hm as [_ Hnil]. destruct act as [|[k v] act']; [reflexivity|].
    exfalso. simpl in Hk. destruct (bt_get_keys k lookup) as [vk Hvk].
    { rewrite <- Hk. left. reflexivity. }
    assert (In (vk, k) l) as Hin by (apply Hl; simpl; split; [left; reflexivity | exact Hvk]).
    rewrite Hnil in Hin. exact Hin.
Qed.

Lemma sweep_step_keys (policy : PolyPolicy) (st st' : SweepState) (pt : Point) :
  bt_keys (active st) = bt_keys (note_velocity_lookup st) ->
  sweep_step policy st pt = Some st' ->
  bt_keys (active st') = bt_keys (note_velocity_lookup st') /\
  choose policy (active st') (note_velocity_lookup st') = Some (current_note st').
Proof.
  intros Hk Hstep. unfold sweep_step in Hstep.
  assert (Hk' : forall act lookup,
            (if is_start pt
             then (bt_insert (pt_midi pt) (pt_time_ms pt + pt_duration_ms pt)%Q (active st),
                   bt_insert (pt_midi pt) (pt_velocity pt) (note_velocity_lookup st))
             else (bt_remove (pt_midi pt) (active st),
                   bt_remove (pt_midi pt) (note_velocity_lookup st))) = (act, lookup) ->
            bt_keys act = bt_keys lookup).
  { intros act lookup H. destruct (is_start pt); injection H as <- <-;
      [apply bt_keys_insert | apply bt_keys_remove]; exact Hk. }
  destruct (if is_start pt then _ else _) as [act lookup] eqn:Eal.
  specialize (Hk' act lookup eq_refl).
  destruct (choose policy act lookup) as [chosen|] eqn:Ech; [|discriminate].
  destruct (option_Z_eqb chosen (current_note st)) eqn:Eq.
  - injection Hstep as <-. simpl. split; [exact Hk'|]. rewrite Ech. f_equal.
    destruct chosen, (current_note st); simpl in Eq; try discriminate; try reflexivity.
    apply Z.eqb_eq in Eq. subst. reflexivity.
  - destruct chosen; injection Hstep as <-; simpl; split; assumption.
Qed.

Lemma sweep_keys (policy : PolyPolicy) (pts : list Point) :
  forall st st',
  bt_keys (active st) = bt_keys (note_velocity_lookup st) ->
  sweep policy st pts = Some st' ->
  bt_keys (active st') = bt_keys (note_velocity_lookup st').
Proof.
  induction pts as [|p pts' IH]; intros st st' Hk Hrun; simpl in Hrun.
  - injection Hrun as <-. exact Hk.
  - destruct (sweep_step policy st p) as [st1|] eqn:E; [|discriminate].
    apply (IH st1); [|exact Hrun].
    exact (proj1 (sweep_step_keys policy st st1 p Hk E)).
Qed.

(* ================================================================== *)
(** * Claims about [reduce_to_monophonic] *)

(** C2: whenever the reduction returns (every policy, both merge flags),
    its output is sorted by start time and non-overlapping: each event ends
    no later than the next one starts (exactly, hence also within the
    2 ms tolerance). *)
Theorem reduce_to_monophonic_sorted_nonoverlapping
  (events : list Event) (policy : PolyPolicy) (merge : bool) (out : list Event)
  (i : nat) (e1 e2 : Event) :
  reduce_to_monophonic events policy merge = Some out ->
  nth_error out i = Some e1 -> nth_error out (S i) = Some e2 ->
  (time_ms e1 <= time_ms e2)%Q /\ (time_ms e1 + duration_ms e1 <= time_ms e2)%Q.
Proof.
  intros Hred H1 H2.
  destruct (chain_nth out i e1 e2 (reduce_chain events policy merge out Hred) H1 H2)
    as [Hd Hle].
  unfold end_ms in Hle. split; lra.
Qed.

Lemma reduce_to_monophonic_sorted_nonoverlapping_witness :
  (time_ms (ev 69 255 0 500) <= time_ms (ev 77 255 500 1000))%Q /\
  (time_ms (ev 69 255 0 500) + duration_ms (ev 69 255 0 500)
     <= time_ms (ev 77 255 500 1000))%Q.
Proof.
  apply (reduce_to_monophonic_sorted_nonoverlapping
           [ev 69 255 0 1000; ev 77 255 500 1000] Highest false
           [ev 69 255 0 500; ev 77 255 500 1000] 0).
  - vm_compute. reflexivity.
  - reflexivity.
  - reflexivity.
Defined.

(** C5: on the intervals (69, v1, 0, 1000) and (77, v2, 500, 1000) the
    [Highest] policy yields (69, 0, 500), (77, 500, 1000); on the
    pitch-swapped input the [Lowest] policy yields (77, 0, 500),
    (69, 500, 1000) (any velocities, either merge flag); and under
    [Loudest], at every boundary point of every run the chosen pitch is an
    active pitch whose recorded velocity is the greatest among the active
    pitches (none when nothing is active), whatever the pitch order. *)
Theorem reduce_policy_overlap_cases :
  (forall v1 v2 merge,
     option_map (map shape)
       (reduce_to_monophonic [ev 69 v1 0 1000; ev 77 v2 500 1000] Highest merge)
     = Some [(69, 0%Q, 500%Q); (77, 500%Q, 1000%Q)]) /\
  (forall v1 v2 merge,
     option_map (map shape)
       (reduce_to_monophonic [ev 77 v1 0 1000; ev 69 v2 500 1000] Lowest merge)
     = Some [(77, 0%Q, 500%Q); (69, 500%Q, 1000%Q)]) /\
  (forall events pts1 pt pts2 st st',
     sorted_points events = pts1 ++ pt :: pts2 ->
     sweep Loudest sweep_init pts1 = Some st ->
     sweep_step Loudest st pt = Some st' ->
     match current_note st' with
     | Some p =>
         exists vp, In p (bt_keys (active st')) /\
           bt_get p (note_velocity_lookup st') = Some vp /\
           forall q vq, In q (bt_keys (active st')) ->
             bt_get q (note_velocity_lookup st') = Some vq -> vq <= vp
     | None => active st' = []
     end).
Proof.
  split; [|split].
  - intros v1 v2 [|]; reflexivity.
  - intros v1 v2 [|]; reflexivity.
  - intros events pts1 pt pts2 st st' _ Hrun Hstep.
    assert (Hk : bt_keys (active st) = bt_keys (note_velocity_lookup st))
      by (apply (sweep_keys Loudest pts1 sweep_init st); [reflexivity | exact Hrun]).
    destruct (sweep_step_keys Loudest st st' pt Hk Hstep) as [Hk' Hch].
    pose proof (choose_loudest_max (active st') (note_velocity_lookup st') Hk') as Hm.
    rewrite Hch in Hm. destruct (current_note st'); exact Hm.
Qed.

Lemma reduce_policy_overlap_cases_witness :
  let events := [ev 77 128 0 1000; ev 69 255 500 1000] in
  let pts := sorted_points events in
  let dummy := mkPoint 0 false 0 0 0 in
  let st := match sweep Loudest sweep_init (firstn 1 pts) with
            | Some s => s | None => sweep_init end in
  let st' := match sweep_step Loudest st (nth 1 pts dummy) with
             | Some s => s | None => sweep_init end in
  match current_note st' with
  | Some p =>
      exists vp, In p (bt_keys (active st')) /\
        bt_get p (note_velocity_lookup st') = Some vp /\
        forall q vq, In q (bt_keys (active st')) ->
          bt_get q (note_velocity_lookup st') = Some vq -> vq <= vp
  | None => active st' = []
  end.
Proof.
  intros events pts dummy st st'.
  apply (proj2 (proj2 reduce_policy_overlap_cases) events (firstn 1 pts)
           (nth 1 pts dummy) (skipn 2 pts) st st');
    vm_compute; reflexivity.
Defined.

Lemma merge_pass_off (l : list Event) : merge_pass false l = l.
Proof.
  unfold merge_pass.
  assert (H : forall acc, fold_left (merge_step false) l acc = rev l ++ acc).
  { induction l as [|e l' IH]; intros acc; simpl; [reflexivity|].
    rewrite IH. unfold merge_step. destruct acc; simpl;
      rewrite <- app_assoc; reflexivity. }
  rewrite H, app_nil_r, rev_involutive. reflexivity.
Qed.

(** C7: with the merge flag on, two consecutive reduced events of pitch 60
    whose gap is 1 ms (within the 2 ms epsilon) stay two events when their
    velocities differ: the merge compares the whole [Note] (pitch and
    velocity), and the reduced events carry the velocities 10 and 20.  With
    equal velocities the pair coalesces into one event of duration
    500 + 1 + 500; with the flag off the merge pass is the identity. *)
Theorem merge_same_pitch_velocity_mismatch :
  option_map (map shape)
    (reduce_to_monophonic [ev 60 10 0 500; ev 60 20 501 500] Lowest true)
  = Some [(60, 0%Q, 500%Q); (60, 501%Q, 500%Q)] /\
  option_map (map (fun e => velocity (note e)))
    (reduce_to_monophonic [ev 60 10 0 500; ev 60 20 501 500] Lowest true)
  = Some [10; 20] /\
  option_map (map shape)
    (reduce_to_monophonic [ev 60 10 0 500; ev 60 10 501 500] Lowest true)
  = Some [(60, 0%Q, 1001%Q)] /\
  (forall l, merge_pass false l = l).
Proof.
  split; [vm_compute; reflexivity|].
  split; [vm_compute; reflexivity|].
  split; [vm_compute; reflexivity|].
  exact merge_pass_off.
Qed.

(** C10: every event the sweep emits carries the velocity of the boundary
    point being processed when the chosen pitch changed, and for some inputs
    that velocity is the velocity of no source note of the event's pitch
    (here pitch 69, recorded at velocity 10, is emitted with velocity 20). *)
Theorem reduce_velocity_from_boundary_point :
  (forall policy st pt st',
     sweep_step policy st pt = Some st' ->
     result st' = result st \/
     exists cn cs, result st' =
       mkEvent (mkNote cn (pt_velocity pt)) cs (pt_time_ms pt - cs)%Q :: result st) /\
  (exists events out e,
     reduce_to_monophonic events Highest false = Some out /\ In e out /\
     forall src, In src events -> midi (note src) = midi (note e) ->
       velocity (note src) <> velocity (note e)).
Proof.
  split.
  - intros policy st pt st' Hstep. unfold sweep_step in Hstep.
    destruct (if is_start pt then _ else _) as [act lookup].
    destruct (choose policy act lookup) as [chosen|]; [|discriminate].
    destruct (option_Z_eqb chosen (current_note st)).
    + injection Hstep as <-. left. reflexivity.
    + assert (Hres : forall r,
                r = match current_note st, current_start st with
                    | Some cn, Some cs =>
                        if Qlt_le_dec (cs + EPSILON_MS) (pt_time_ms pt)
                        then mkEvent (mkNote cn (pt_velocity pt)) cs (pt_time_ms pt - cs)%Q
                               :: result st
                        else result st
                    | _, _ => result st
                    end ->
                r = result st \/
                exists cn cs, r = mkEvent (mkNote cn (pt_velocity pt)) cs
                                    (pt_time_ms pt - cs)%Q :: result st).
      { intros r ->. destruct (current_note st) as [cn|]; [|left; reflexivity].
        destruct (current_start st) as [cs|]; [|left; reflexivity].
        destruct (Qlt_le_dec _ _); [right; exists cn, cs; reflexivity | left; reflexivity]. }
      destruct chosen; injection Hstep as <-; simpl; apply Hres; reflexivity.
  - exists [ev 69 10 0 1000; ev 77 20 500 1000],
           [ev 69 20 0 500; ev 77 20 500 1000], (ev 69 20 0 500).
    split; [vm_compute; reflexivity|]. split; [left; reflexivity|].
    intros src [<-|[<-|[]]]; simpl; discriminate.
Qed.

(* ================================================================== *)
(** * Pitches and durations through the importer *)

Lemma insert_stable_in {A : Type} (lt : A -> A -> bool) (x y : A) (l : list A) :
  In y (insert_stable lt x l) -> y = x \/ In y l.
Proof.
  induction l as [|z l' IH]; simpl; intros H.
  - destruct H as [H|[]]. left. symmetry. exact H.
  - destruct (lt x z); simpl in H.
    + destruct H as [H|[H|H]]; [left; symmetry; exact H | right; left; exact H | right; right; exact H].
    + destruct H as [H|H]; [right; left; exact H|].
      destruct (IH H) as [H'|H']; [left; exact H' | right; right; exact H'].
Qed.

Lemma sort_stable_in {A : Type} (lt : A -> A -> bool) (y : A) (l : list A) :
  In y (sort_stable lt l) -> In y l.
Proof.
  unfold sort_stable.
  assert (Hgen : forall acc, In y (fold_left (fun acc x => insert_stable lt x acc) l acc) ->
                             In y l \/ In y acc).
  { induction l as [|x l' IH]; intros acc H; simpl in *; [right; exact H|].
    destruct (IH _ H) as [H'|H']; [left; right; exact H'|].
    destruct (insert_stable_in lt x y acc H') as [->|H'']; [left; left; reflexivity | right; exact H'']. }
  intros H. destruct (Hgen [] H) as [H'|[]]. exact H'.
Qed.

Section Pitches.
Variable P : Z -> Prop.

Lemma bt_insert_keys {V : Type} (k k' : Z) (v : V) (m : list (Z * V)) :
  In k' (bt_keys (bt_insert k v m)) -> k' = k \/ In k' (bt_keys m).
Proof.
  induction m as [|[k1 v1] m' IH]; simpl; intros H.
  - destruct H as [H|[]]. left. symmetry. exact H.
  - destruct (Z.ltb k k1); [|destruct (Z.eqb k k1) eqn:E]; simpl in H.
    + destruct H as [H|H]; [left; symmetry; exact H | right; exact H].
    + apply Z.eqb_eq in E. subst k1.
      destruct H as [H|H]; [left; symmetry; exact H | right; right; exact H].
    + destruct H as [H|H]; [right; left; exact H|].
      destruct (IH H) as [H'|H']; [left; exact H' | right; right; exact H'].
Qed.

Lemma bt_remove_keys {V : Type} (k k' : Z) (m : list (Z * V)) :
  In k' (bt_keys (bt_remove k m)) -> In k' (bt_keys m).
Proof.
  induction m as [|[k1 v1] m' IH]; simpl; intros H; [exact H|].
  destruct (Z.eqb k k1); simpl in H; [right; exact H|].
  destruct H as [H|H]; [left; exact H | right; apply IH; exact H].
Qed.

Lemma last_some_in (p : Z) (l : list Z) :
  last (map Some l) None = Some p -> In p l.
Proof.
  induction l as [|x l' IH]; simpl; intros H; [discriminate|].
  destruct l' as [|y l'']; simpl in H.
  - injection H as ->. left. reflexivity.
  - right. apply IH. exact H.
Qed.

Lemma choose_in_keys (policy : PolyPolicy) (act : list (Z * Q)) (lookup : list (Z * Z))
  (p : Z) :
  choose policy act lookup = Some (Some p) -> In p (bt_keys act).
Proof.
  destruct policy; simpl; intros H; try discriminate; injection H as H.
  - apply last_some_in. exact H.
  - destruct (bt_keys act) as [|k ks]; simpl in H; [discriminate|].
    injection H as ->. left. reflexivity.
  - unfold max_by_vel in H.
    set (l := flat_map _ (bt_keys act)) in H.
    pose proof (max_by_vel_fold l None) as Hm.
    destruct (fold_left max_by_vel_step l None) as [[vm pm]|]; simpl in H; [|discriminate].
    injection H as ->. destruct Hm as [[Hin|Hin] _]; [|discriminate].
    subst l. apply in_flat_map in Hin. destruct Hin as [n [Hn Hx]].
    destruct (bt_get n lookup); [|destruct Hx].
    destruct Hx as [Hx|[]]. injection Hx as _ ->. exact Hn.
Qed.

Definition pitch_inv (st : SweepState) : Prop :=
  (forall k, In k (bt_keys (active st)) -> P k) /\
  (forall n, current_note st = Some n -> P n) /\
  (forall e, In e (result st) -> P (midi (note e))).

Lemma sweep_step_pitch (policy : PolyPolicy) (st st' : SweepState) (pt : Point) :
  pitch_inv st -> P (pt_midi pt) -> sweep_step policy st pt = Some st' -> pitch_inv st'.
Proof.
  intros [Hk [Hc Hr]] Hpt Hstep. unfold sweep_step in Hstep.
  assert (Hact : forall act lookup,
            (if is_start pt
             then (bt_insert (pt_midi pt) (pt_time_ms pt + pt_duration_ms pt)%Q (active st),
                   bt_insert (pt_midi pt) (pt_velocity pt) (note_velocity_lookup st))
             else (bt_remove (pt_midi pt) (active st),
                   bt_remove (pt_midi pt) (note_velocity_lookup st))) = (act, lookup) ->
            forall k, In k (bt_keys act) -> P k).
  { intros act lookup H k Hin. destruct (is_start pt); injection H as <- <-.
    - destruct (bt_insert_keys _ _ _ _ Hin) as [->|H']; [exact Hpt | apply Hk; exact H'].
    - apply Hk. eapply bt_remove_keys. exact Hin. }
  destruct (if is_start pt then _ else _) as [act lookup] eqn:Eal.
  specialize (Hact act lookup eq_refl).
  destruct (choose policy act lookup) as [chosen|] eqn:Ech; [|discriminate].
  assert (Hres : forall e, In e (match current_note st, current_start st with
                  | Some cn, Some cs =>
                      if Qlt_le_dec (cs + EPSILON_MS) (pt_time_ms pt)
                      then mkEvent (mkNote cn (pt_velocity pt)) cs (pt_time_ms pt - cs)%Q
                             :: result st
                      else result st
                  | _, _ => result st
                  end) -> P (midi (note e))).
  { intros e. destruct (current_note st) as [cn|] eqn:Ecn; [|apply Hr].
    destruct (current_start st); [|apply Hr].
    destruct (Qlt_le_dec _ _); [|apply Hr].
    intros [<-|H]; [simpl; apply Hc; reflexivity | apply Hr; exact H]. }
  destruct (option_Z_eqb chosen (current_note st)).
  - injection Hstep as <-. unfold pitch_inv; simpl. auto.
  - destruct chosen as [ch|]; injection Hstep as <-; unfold pitch_inv; simpl;
      repeat split; auto; intros n Hn; [|discriminate].
    injection Hn as <-. apply Hact. eapply choose_in_keys. exact Ech.
Qed.

Lemma sweep_pitch (policy : PolyPolicy) (pts : list Point) :
  forall st st', (forall p, In p pts -> P (pt_midi p)) ->
  pitch_inv st -> sweep policy st pts = Some st' -> pitch_inv st'.
Proof.
  induction pts as [|p pts' IH]; intros st st' Hp Hinv Hrun; simpl in Hrun.
  - injection Hrun as <-. exact Hinv.
  - destruct (sweep_step policy st p) as [st1|] eqn:E; [|discriminate].
    apply (IH st1); [intros q Hq; apply Hp; right; exact Hq | | exact Hrun].
    eapply sweep_step_pitch; [exact Hinv | apply Hp; left; reflexivity | exact E].
Qed.

Lemma merge_pass_pitch (merge : bool) (l : list Event) :
  (forall e, In e l -> P (midi (note e))) ->
  forall e, In e (merge_pass merge l) -> P (midi (note e)).
Proof.
  intros Hl. unfold merge_pass.
  assert (Hgen : forall acc, (forall e, In e acc -> P (midi (note e))) ->
            forall e, In e (fold_left (merge_step merge) l acc) -> P (midi (note e))).
  { induction l as [|x l' IH]; intros acc Hacc; simpl; [exact Hacc|].
    apply IH; [intros e He; apply Hl; right; exact He|].
    intros e He. unfold merge_step in He. destruct acc as [|a rest].
    - destruct He as [<-|[]]. apply Hl. left. reflexivity.
    - destruct (merge && _ && _); simpl in He.
      + destruct He as [<-|He]; simpl; apply Hacc; [left; reflexivity | right; exact He].
      + destruct He as [<-|He]; [apply Hl; left; reflexivity | apply Hacc; exact He]. }
  intros e He. apply in_rev in He. apply (Hgen []); [intros ? []| exact He].
Qed.

Lemma reduce_pitch (events : list Event) (policy : PolyPolicy) (merge : bool)
  (out : list Event) :
  (forall e, In e events -> P (midi (note e))) ->
  reduce_to_monophonic events policy merge = Some out ->
  forall e, In e out -> P (midi (note e)).
Proof.
  intros Hev. unfold reduce_to_monophonic. destruct events as [|e0 events'].
  - intros H. injection H as <-. intros e [].
  - destruct (sweep policy sweep_init (sorted_points (e0 :: events'))) as [st|] eqn:Erun;
      [|discriminate].
    intros H. injection H as <-. apply merge_pass_pitch.
    intros e He. apply in_rev in He. revert e He.
    refine (proj2 (proj2 (sweep_pitch policy _ sweep_init st _ _ Erun))).
    + intros p Hp. unfold sorted_points in Hp. apply sort_stable_in, in_flat_map in Hp.
      destruct Hp as [e [He Hp]]. unfold points_of_event in Hp.
      destruct Hp as [<-|[<-|[]]]; simpl; apply Hev; exact He.
    + unfold pitch_inv; simpl. repeat split; intros; try contradiction; discriminate.
Qed.
End Pitches.

Lemma octave_fold_shift (fuel : nat) :
  forall n lo hi, exists k, Z.abs k <= Z.of_nat fuel /\ octave_fold fuel n lo hi = n + 12 * k.
Proof.
  induction fuel as [|f IH]; intros n lo hi; cbn [octave_fold].
  - exists 0. split; lia.
  - destruct (Z.ltb n lo || Z.ltb hi n).
    + destruct (IH (if Z.ltb n lo then n + 12 else n - 12) lo hi) as [k [Hk Heq]].
      rewrite Heq. destruct (Z.ltb n lo).
      * exists (k + 1). split; lia.
      * exists (k - 1). split; lia.
    + exists 0. split; lia.
Qed.

Lemma transpose_clip_spec (m t : Z) (clip : option (Z * Z)) (p : Z) :
  transpose_clip m t clip = Some p ->
  0 <= p <= 127 /\ (forall lo hi, clip = Some (lo, hi) -> lo <= p <= hi) /\
  exists k, Z.abs k <= 8 /\ p = wrap32 (m + t) + 12 * k.
Proof.
  unfold transpose_clip. intros H.
  assert (Hpre : forall n, (match clip with
                            | Some (min_id, max_id) =>
                                let n := octave_fold 8 (wrap32 (m + t)) min_id max_id in
                                if Z.ltb n min_id || Z.ltb max_id n then None else Some n
                            | None => Some (wrap32 (m + t))
                            end) = Some n ->
                    (forall lo hi, clip = Some (lo, hi) -> lo <= n <= hi) /\
                    exists k, Z.abs k <= 8 /\ n = wrap32 (m + t) + 12 * k).
  { intros n Hn. destruct clip as [[lo hi]|].
    - destruct (octave_fold_shift 8 (wrap32 (m + t)) lo hi) as [k [Hk Heq]].
      cbv zeta in Hn. set (f := octave_fold 8 (wrap32 (m + t)) lo hi) in *.
      destruct (Z.ltb f lo) eqn:E1; [discriminate|].
      destruct (Z.ltb hi f) eqn:E2; [discriminate|].
      simpl in Hn. injection Hn as <-. apply Z.ltb_ge in E1. apply Z.ltb_ge in E2.
      split; [intros lo' hi' Hc; injection Hc as <- <-; lia|].
      exists k. split; [simpl in Hk; lia | exact Heq].
    - injection Hn as <-. split; [intros; discriminate|]. exists 0. split; lia. }
  destruct (match clip with Some _ => _ | None => _ end) as [n|] eqn:En; [|discriminate].
  destruct (Z.leb 0 n && Z.leb n 127) eqn:Er; [|discriminate].
  injection H as <-. apply andb_prop in Er. destruct Er as [E1 E2].
  apply Z.leb_le in E1. apply Z.leb_le in E2.
  destruct (Hpre n eq_refl) as [Hc Hk]. split; [lia | split; assumption].
Qed.

Lemma raw_events_in (segs : list TempoSegment) (tpq t : Z) (clip : option (Z * Z))
  (ivs : list NoteInterval) (e : Event) :
  In e (flat_map (fun iv => match interval_to_event segs tpq t clip iv with
                            | Some e => [e] | None => [] end) ivs) ->
  exists iv, In iv ivs /\ interval_to_event segs tpq t clip iv = Some e.
Proof.
  intros H. apply in_flat_map in H. destruct H as [iv [Hiv He]].
  destruct (interval_to_event segs tpq t clip iv) as [e'|] eqn:E; [|destruct He].
  destruct He as [<-|[]]. eauto.
Qed.

Lemma cull_final_spec (l : list Event) (e : Event) :
  In e (cull_final l) <-> In e l /\ (EPSILON_MS <= duration_ms e)%Q.
Proof.
  unfold cull_final. rewrite filter_In.
  destruct (Qlt_le_dec (duration_ms e) EPSILON_MS) as [Hlt|Hge]; split.
  - intros [_ H]. discriminate.
  - intros [_ H]. exfalso. apply (Qlt_not_le _ _ Hlt). exact H.
  - intros [H _]. split; assumption.
  - intros [H _]. split; [assumption | reflexivity].
Qed.

(** How [midi_tracks_to_song] succeeds. *)
Lemma midi_tracks_to_song_inv (timing : Timing) (tracks : list (list TrackEvent))
  (t : Z) (policy : PolyPolicy) (merge : bool) (clip : option (Z * Z)) (out : list Event) :
  midi_tracks_to_song timing tracks t policy merge clip = Some out ->
  exists tpq st reduced,
    timing = Metrical tpq /\ extract_tracks extract_init tracks = Some st /\
    reduce_to_monophonic
      (sort_by_time
        (flat_map (fun iv => match interval_to_event
                                     (build_segments (rev (tempo_changes st)) tpq) tpq t clip iv with
                             | Some e => [e] | None => [] end)
                  (rev (auto_close st tpq)))) policy merge = Some reduced /\
    out = cull_final reduced.
Proof.
  unfold midi_tracks_to_song. destruct timing as [tpq|]; [|discriminate].
  destruct (extract_tracks extract_init tracks) as [st|]; [|discriminate].
  destruct (reduce_to_monophonic _ policy merge) as [reduced|] eqn:Ered; [|discriminate].
  intros H. injection H as <-. exists tpq, st, reduced. auto.
Qed.

Lemma interval_to_event_spec (segs : list TempoSegment) (tpq t : Z) (clip : option (Z * Z))
  (iv : NoteInterval) (e : Event) :
  interval_to_event segs tpq t clip iv = Some e ->
  transpose_clip (ni_midi iv) t clip = Some (midi (note e)) /\
  (ticks_to_ms segs tpq (start_tick iv) < ticks_to_ms segs tpq (end_tick iv))%Q /\
  (EPSILON_MS <= duration_ms e)%Q /\
  time_ms e = ticks_to_ms segs tpq (start_tick iv) /\
  duration_ms e = (ticks_to_ms segs tpq (end_tick iv) - ticks_to_ms segs tpq (start_tick iv))%Q.
Proof.
  unfold interval_to_event.
  destruct (transpose_clip (ni_midi iv) t clip) as [n|]; [|discriminate].
  set (s := ticks_to_ms segs tpq (start_tick iv)).
  set (en := ticks_to_ms segs tpq (end_tick iv)).
  destruct (Qle_bool en s) eqn:Ele; [discriminate|].
  destruct (Qlt_le_dec (en - s) EPSILON_MS) as [_|Hge]; [discriminate|].
  intros H. injection H as <-. simpl. repeat split; try reflexivity; try exact Hge.
  apply Qnot_le_lt. intros Hle. apply Qle_bool_iff in Hle. congruence.
Qed.

(** C6: every event of a successful build lasts at least the 2 ms epsilon:
    an interval becomes an event only when its end time is strictly after
    its start time and the difference is at least epsilon; the final cull
    keeps exactly the reduced events of duration at least epsilon; so
    every event of the returned song, for every policy and merge flag, has
    [duration_ms >= EPSILON_MS]. *)
Theorem song_events_at_least_epsilon :
  (forall segs tpq t clip iv e,
     interval_to_event segs tpq t clip iv = Some e ->
     (ticks_to_ms segs tpq (start_tick iv) < ticks_to_ms segs tpq (end_tick iv))%Q /\
     (EPSILON_MS <= duration_ms e)%Q) /\
  (forall l e, In e (cull_final l) <-> In e l /\ (EPSILON_MS <= duration_ms e)%Q) /\
  (forall timing tracks t policy merge clip out,
     midi_tracks_to_song timing tracks t policy merge clip = Some out ->
     forall e, In e out -> (EPSILON_MS <= duration_ms e)%Q).
Proof.
  split; [|split].
  - intros segs tpq t clip iv e H.
    destruct (interval_to_event_spec segs tpq t clip iv e H) as [_ [H1 [H2 _]]]. auto.
  - exact cull_final_spec.
  - intros timing tracks t policy merge clip out H e He.
    destruct (midi_tracks_to_song_inv timing tracks t policy merge clip out H)
      as [tpq [st [reduced [_ [_ [_ ->]]]]]].
    apply cull_final_spec in He. exact (proj2 He).
Qed.

Lemma song_events_at_least_epsilon_witness :
  let out := match midi_tracks_to_song (Metrical 480) [sample_track] 0 Highest false None with
             | Some o => o | None => [] end in
  let iv := mkInterval 69 0 480 100 0 in
  let e := match interval_to_event [] 480 0 None iv with
           | Some e => e | None => ev 0 0 0 0 end in
  (forall e, In e out -> (EPSILON_MS <= duration_ms e)%Q) /\
  (ticks_to_ms [] 480 (start_tick iv) < ticks_to_ms [] 480 (end_tick iv))%Q /\
  (EPSILON_MS <= duration_ms e)%Q.
Proof.
  intros out iv e. split.
  - apply (proj2 (proj2 song_events_at_least_epsilon)
             (Metrical 480) [sample_track] 0 Highest false None out).
    vm_compute. reflexivity.
  - apply (proj1 song_events_at_least_epsilon [] 480 0 None iv e).
    vm_compute. reflexivity.
Defined.

(** C9: the transpose offset is added to the pitch (with [i32]
    wrap-around); with a clip range the result is octave-folded by at most
    8 steps of 12 semitones and dropped if it is still outside the range;
    a pitch outside [0..=127] is dropped.  Hence every event of a
    successful build has a pitch in [0..=127] and inside the clip range
    when one is given. *)
Theorem song_pitches_in_range :
  (forall m t clip p, transpose_clip m t clip = Some p ->
     0 <= p <= 127 /\ (forall lo hi, clip = Some (lo, hi) -> lo <= p <= hi) /\
     exists k, Z.abs k <= 8 /\ p = wrap32 (m + t) + 12 * k) /\
  (forall m t lo hi,
     let n := octave_fold 8 (wrap32 (m + t)) lo hi in
     (n < lo \/ hi < n \/ n < 0 \/ 127 < n) -> transpose_clip m t (Some (lo, hi)) = None) /\
  (forall timing tracks t policy merge clip out,
     midi_tracks_to_song timing tracks t policy merge clip = Some out ->
     forall e, In e out ->
       0 <= midi (note e) <= 127 /\
       forall lo hi, clip = Some (lo, hi) -> lo <= midi (note e) <= hi).
Proof.
  split; [|split].
  - exact transpose_clip_spec.
  - intros m t lo hi n Hout. unfold transpose_clip. cbv zeta. fold n.
    destruct (Z.ltb n lo) eqn:E1; [reflexivity|].
    destruct (Z.ltb hi n) eqn:E2; [reflexivity|]. simpl.
    apply Z.ltb_ge in E1. apply Z.ltb_ge in E2.
    destruct (Z.leb 0 n) eqn:E3; [|reflexivity].
    destruct (Z.leb n 127) eqn:E4; [|reflexivity].
    apply Z.leb_le in E3. apply Z.leb_le in E4. lia.
  - intros timing tracks t policy merge clip out H e He.
    destruct (midi_tracks_to_song_inv timing tracks t policy merge clip out H)
      as [tpq [st [reduced [_ [_ [Hred ->]]]]]].
    apply cull_final_spec in He. destruct He as [He _].
    refine (reduce_pitch (fun p => 0 <= p <= 127 /\
                                   forall lo hi, clip = Some (lo, hi) -> lo <= p <= hi)
              _ policy merge reduced _ Hred e He).
    intros e' He'. unfold sort_by_time in He'. apply sort_stable_in, raw_events_in in He'.
    destruct He' as [iv [_ Hiv]].
    destruct (interval_to_event_spec _ _ _ _ _ _ Hiv) as [Htc _].
    destruct (transpose_clip_spec _ _ _ _ Htc) as [H1 [H2 _]]. auto.
Qed.

Lemma song_pitches_in_range_witness :
  let out := match midi_tracks_to_song (Metrical 480) [sample_track] 0 Highest false
                     (Some (45, 69)) with
             | Some o => o | None => [] end in
  (forall e, In e out ->
     0 <= midi (note e) <= 127 /\
     forall lo hi, Some (45, 69) = Some (lo, hi) -> lo <= midi (note e) <= hi) /\
  (0 <= 65 <= 127 /\ (forall lo hi, Some (45, 69) = Some (lo, hi) -> lo <= 65 <= hi) /\
   exists k, Z.abs k <= 8 /\ 65 = wrap32 (77 + 0) + 12 * k) /\
  transpose_clip 100 0 (Some (70, 75)) = None.
Proof.
  intros out. split; [|split].
  - apply (proj2 (proj2 song_pitches_in_range)
             (Metrical 480) [sample_track] 0 Highest false (Some (45, 69)) out).
    vm_compute. reflexivity.
  - apply (proj1 song_pitches_in_range 77 0 (Some (45, 69)) 65). vm_compute. reflexivity.
  - apply (proj1 (proj2 song_pitches_in_range) 100 0 70 75). vm_compute. right. left. reflexivity.
Defined.

(* ================================================================== *)
(** * Auto-closing of unmatched activations *)

Section FoldIn.
Context {A B : Type} (f : list B -> A -> list B) (x : B).
Hypothesis f_keep : forall acc a, In x acc -> In x (f acc a).

Lemma fold_left_keep (l : list A) :
  forall acc, In x acc -> In x (fold_left f l acc).
Proof.
  induction l as [|a l' IH]; intros acc H; simpl; [exact H|].
  apply IH, f_keep, H.
Qed.

Lemma fold_left_add (l : list A) (a : A) :
  In a l -> (forall acc, In x (f acc a)) -> forall acc, In x (fold_left f l acc).
Proof.
  induction l as [|a' l' IH]; intros Ha Hadd acc; simpl; [destruct Ha|].
  destruct Ha as [->|Ha].
  - apply fold_left_keep, Hadd.
  - apply IH; assumption.
Qed.
End FoldIn.

Lemma auto_close_in (st : ExtractState) (tpq ch key start vel : Z)
  (stack : list (Z * Z)) :
  In ((ch, key), stack) (open_notes st) -> In (start, vel) stack ->
  In (mkInterval key start
        (if Z.ltb start (last_tick_estimate st) then last_tick_estimate st
         else wrap64 (start + tpq)) vel ch)
     (auto_close st tpq).
Proof.
  intros Hk Hs. unfold auto_close.
  set (x := mkInterval key start _ vel ch).
  assert (Hinner_keep : forall (stk : list (Z * Z)) acc, In x acc ->
            In x (fold_left
                    (fun acc '(start_tick, start_vel) =>
                       mkInterval key start_tick
                         (if Z.ltb start_tick (last_tick_estimate st)
                          then last_tick_estimate st
                          else wrap64 (start_tick + tpq)) start_vel ch :: acc) stk acc)).
  { intros stk. apply fold_left_keep. intros acc [s v] H. right. exact H. }
  apply (fold_left_add _ x) with (a := ((ch, key), stack)); [| exact Hk |].
  - intros acc [[c k] stk] H. apply fold_left_keep; [|exact H].
    intros acc' [s v] H'. right. exact H'.
  - intros acc. apply (fold_left_add _ x) with (a := (start, vel)).
    + intros acc' [s v] H'. right. exact H'.
    + apply in_rev. rewrite rev_involutive. exact Hs.
    + intros acc'. left. reflexivity.
Qed.

Lemma sweep_total (policy : PolyPolicy) (pts : list Point) :
  policy <> Densest -> forall st, exists st', sweep policy st pts = Some st'.
Proof.
  intros Hp. induction pts as [|p pts' IH]; intros st; simpl; [eauto|].
  unfold sweep_step.
  destruct (if is_start p then _ else _) as [act lookup].
  assert (Hc : exists c, choose policy act lookup = Some c)
    by (destruct policy; simpl; eauto; congruence).
  destruct Hc as [c ->].
  destruct (option_Z_eqb c (current_note st)); [apply IH|].
  destruct c; apply IH.
Qed.

Lemma reduce_total (events : list Event) (policy : PolyPolicy) (merge : bool) :
  policy <> Densest -> exists out, reduce_to_monophonic events policy merge = Some out.
Proof.
  intros Hp. unfold reduce_to_monophonic. destruct events as [|e0 events']; [eauto|].
  destruct (sweep_total policy (sorted_points (e0 :: events')) Hp sweep_init) as [st ->].
  eauto.
Qed.

(** C8 (as the spec states it, refuted): an activation with no matching
    deactivation is not closed at the timeline's last observed tick when
    that tick is its own: here note 62 starts at tick 200, the last tick of
    a timeline that also holds note 60 (ticks 0 to 100), and is closed at
    200 + 480 = 680 instead. *)
Lemma auto_close_not_last_observed_tick :
  option_map (fun st => (open_notes st, auto_close st 480))
    (extract_tracks extract_init [unclosed_track])
  = Some ([((0, 60), []); ((0, 62), [(200, 100)])],
          [mkInterval 62 200 680 100 0; mkInterval 60 0 100 100 0]) /\
  last_observed_tick [unclosed_track] = 200.
Proof. split; vm_compute; reflexivity. Qed.

(** C8 (amended): auto-closing never fails: every activation still open
    after the event loop yields an interval ending at [last_tick_estimate]
    (the latest end tick of the closed intervals and the latest
    tempo-change tick, 0 if none) when that estimate is strictly after the
    activation tick, and at the activation tick plus one quarter note
    ([ticks_per_quarter], [u64] arithmetic) otherwise; with a metrical
    header whose events extract, the build then returns for every policy
    but the unimplemented [Densest]. *)
Theorem auto_close_open_notes :
  forall tracks tpq st, extract_tracks extract_init tracks = Some st ->
  (forall ch key stack start vel,
     In ((ch, key), stack) (open_notes st) -> In (start, vel) stack ->
     In (mkInterval key start
           (if Z.ltb start (last_tick_estimate st) then last_tick_estimate st
            else wrap64 (start + tpq)) vel ch)
        (auto_close st tpq)) /\
  (forall t policy merge clip, policy <> Densest ->
     exists out, midi_tracks_to_song (Metrical tpq) tracks t policy merge clip = Some out).
Proof.
  intros tracks tpq st Hst. split.
  - intros ch key stack start vel Hk Hs.
    exact (auto_close_in st tpq ch key start vel stack Hk Hs).
  - intros t policy merge clip Hp. unfold midi_tracks_to_song. rewrite Hst.
    destruct (reduce_total
                (sort_by_time
                   (flat_map (fun iv => match interval_to_event
                                                (build_segments (rev (tempo_changes st)) tpq)
                                                tpq t clip iv with
                                        | Some e => [e] | None => [] end)
                             (rev (auto_close st tpq)))) policy merge Hp) as [out Hout].
    rewrite Hout. eauto.
Qed.

Lemma auto_close_open_notes_witness :
  let st := match extract_tracks extract_init [unclosed_track] with
            | Some st => st | None => extract_init end in
  In (mkInterval 62 200
        (if Z.ltb 200 (last_tick_estimate st) then last_tick_estimate st
         else wrap64 (200 + 480)) 100 0)
     (auto_close st 480) /\
  exists out, midi_tracks_to_song (Metrical 480) [unclosed_track] 0 Highest false None
              = Some out.
Proof.
  intros st. split.
  - apply (proj1 (auto_close_open_notes [unclosed_track] 480 st eq_refl)
             0 62 [(200, 100)] 200 100); vm_compute; auto.
  - apply (proj2 (auto_close_open_notes [unclosed_track] 480 st eq_refl)).
    discriminate.
Defined.

(* ================================================================== *)
(** * The press/release envelope of [key_press] *)

Lemma articulate_pos (hold_ms articulation : Q) :
  (0 < hold_ms)%Q -> (0 < fst (articulate hold_ms articulation))%Q.
Proof.
  intros H. unfold articulate.
  destruct (Qlt_bool 0 articulation && Qlt_bool articulation 1); simpl;
    [ destruct (Qle_bool (hold_ms * articulation) 0) eqn:E; simpl;
      [ exact H | apply Qnot_le_lt; intros Hle; apply Qle_bool_iff in Hle; congruence ]
    | destruct (Qle_bool hold_ms 0); exact H ].
Qed.

Ltac prefix_of n :=
  exists n; split; [ rewrite <- ?app_assoc; reflexivity | try discriminate; reflexivity ].

(** C1: for a positive hold, [key_press] makes its calls as a prefix of the
    envelope: note-selection down, 1 ms, play key down, the hold, play key
    up, 1 ms, note-selection up (then the release rest when positive). The
    prefix is cut only where a key call fails, and is whole when the call
    returns [Ok]. In the envelope the play key goes down (position 2)
    strictly after the note-selection keys (position 0), and up (position 4)
    strictly before them (position 6), whatever the input and articulation;
    the hold between them is positive. *)
Theorem key_press_envelope :
  forall (key_result : list Action -> Action -> bool) (input : Input)
         (hold_ms articulation : Q) (tr0 : list Action),
  (0 < hold_ms)%Q ->
  let '(final_hold_ms, release_ms) := articulate hold_ms articulation in
  let env := envelope input final_hold_ms release_ms in
  (exists n : nat,
     snd (key_press key_result input hold_ms articulation tr0) = tr0 ++ firstn n env /\
     (fst (key_press key_result input hold_ms articulation tr0) = Some tt ->
      n = List.length env)) /\
  nth_error env 0 = Some (KeyDown input) /\
  nth_error env 2 = Some (KeyDown play_input) /\
  nth_error env 4 = Some (KeyUp play_input) /\
  nth_error env 6 = Some (KeyUp input) /\
  (0 < final_hold_ms)%Q.
Proof.
  intros key_result input hold_ms articulation tr0 Hpos.
  pose proof (articulate_pos hold_ms articulation Hpos) as Hf.
  unfold key_press.
  destruct (Qle_bool hold_ms 0) eqn:Eh.
  { apply Qle_bool_iff in Eh. exfalso. apply (Qlt_not_le _ _ Hpos Eh). }
  destruct (articulate hold_ms articulation) as [f rel]. simpl in Hf.
  refine (conj _ (conj eq_refl (conj eq_refl (conj eq_refl (conj eq_refl Hf))))).
  unfold envelope.
  unfold ebind, key_down, key_up, key_call, sleep, eret.
  destruct (key_result tr0 (KeyDown input)); [| prefix_of 1%nat].
  destruct (key_result _ (KeyDown play_input)); [| prefix_of 3%nat].
  destruct (key_result _ (KeyUp play_input)); [| prefix_of 5%nat].
  destruct (key_result _ (KeyUp input)).
  - destruct (Qlt_bool 0 rel); [prefix_of 8%nat | prefix_of 7%nat].
  - destruct (Qlt_bool 0 rel); prefix_of 7%nat.
Qed.

Lemma key_press_envelope_witness :
  (0 < 300)%Q /\
  let '(final_hold_ms, release_ms) := articulate 300 (1 # 2) in
  let env := envelope (mkInput [49; 102] "A4 (69)") final_hold_ms release_ms in
  (exists n : nat,
     snd (key_press play_key_fails (mkInput [49; 102] "A4 (69)") 300 (1 # 2) []) = [] ++ firstn n env /\
     (fst (key_press play_key_fails (mkInput [49; 102] "A4 (69)") 300 (1 # 2) []) = Some tt ->
      n = List.length env)) /\
  nth_error env 0 = Some (KeyDown (mkInput [49; 102] "A4 (69)")) /\
  nth_error env 2 = Some (KeyDown play_input) /\
  nth_error env 4 = Some (KeyUp play_input) /\
  nth_error env 6 = Some (KeyUp (mkInput [49; 102] "A4 (69)")) /\
  (0 < final_hold_ms)%Q.
Proof.
  split; [reflexivity|].
  exact (key_press_envelope play_key_fails (mkInput [49; 102] "A4 (69)") 300 (1 # 2) []
           ltac:(reflexivity)).
Defined.

(* ================================================================== *)
(** * The player's run state *)

(** C3 (refuted for non-blocking play): after a blocking [play] returns,
    a new [play] on a loaded schedule succeeds, blocking or not. After a
    non-blocking [play] whose worker has exited normally, no worker runs,
    yet [play] is still rejected as [PlaybackAlreadyRunning] with the state
    unchanged, because the stored handle is never cleared; only [stop],
    which clears it, lets [play] succeed again. *)
Theorem play_after_worker_exit :
  forall (p : Player) (join : bool),
  schedule p <> [] -> worker_handle p = None ->
  (snd (play p true) = Ok /\ snd (play (fst (play p true)) join) = Ok) /\
  (let p2 := worker_exits (fst (play p false)) in
   snd (play p false) = Ok /\
   worker_running p2 = false /\
   play p2 join = (p2, Err PlaybackAlreadyRunning) /\
   snd (stop p2) = Ok /\
   snd (play (fst (stop p2)) join) = Ok).
Proof.
  intros [sched tx h] join Hs Hh; simpl in Hs, Hh; subst h.
  destruct sched as [|e sched']; [congruence|].
  unfold play, worker_exits, stop, worker_running; simpl.
  destruct join; repeat split.
Qed.

Lemma play_after_worker_exit_witness :
  let p := load_schedule player_new sample_schedule in
  (schedule p <> [] /\ worker_handle p = None) /\
  (snd (play p true) = Ok /\ snd (play (fst (play p true)) false) = Ok) /\
  (let p2 := worker_exits (fst (play p false)) in
   snd (play p false) = Ok /\
   worker_running p2 = false /\
   play p2 false = (p2, Err PlaybackAlreadyRunning) /\
   snd (stop p2) = Ok /\
   snd (play (fst (stop p2)) false) = Ok).
Proof.
  intros p. split; [split; [discriminate | reflexivity]|].
  exact (play_after_worker_exit p false ltac:(discriminate) eq_refl).
Defined.

(** C4: a rejected [play] changes nothing and spawns no worker; it is
    rejected exactly when a worker handle is stored ([PlaybackAlreadyRunning])
    or, without one, when the schedule is empty ([NoSongLoaded]). [stop]
    fails, changing nothing, exactly when no control sender is stored, which
    is not the same as no worker running: after a blocking [play] has
    returned, no worker runs but the sender is still stored, and [stop]
    returns [Ok]. *)
Theorem player_rejections :
  (forall p join p' e, play p join = (p', Err e) ->
     p' = p /\
     ((e = PlaybackAlreadyRunning /\ worker_handle p <> None) \/
      (e = NoSongLoaded /\ worker_handle p = None /\ schedule p = []))) /\
  (forall p join, (worker_handle p <> None \/ schedule p = []) ->
     exists e, play p join = (p, Err e)) /\
  (forall p p' e, stop p = (p', Err e) -> p' = p /\ control_tx p = None) /\
  (forall p, control_tx p = None -> stop p = (p, Err NoWorkerRunning)) /\
  (let p := fst (play (load_schedule player_new sample_schedule) true) in
   worker_running p = false /\ stop p = (mkPlayer sample_schedule None None, Ok)).
Proof.
  split; [|split; [|split; [|split]]].
  - intros [s tx h] join p' e. unfold play; simpl.
    destruct h as [h|]; [intros [= <- <-]; split; [reflexivity|]; left; split; congruence|].
    destruct s as [|x s']; [intros [= <- <-]; split; [reflexivity|]; right; auto|].
    destruct join; discriminate.
  - intros [s tx h] join [Hh|Hs]; unfold play; simpl in *.
    + destruct h; [eauto | congruence].
    + subst s. destruct h; eauto.
  - intros [s tx h] p' e. unfold stop; simpl.
    destruct tx; [discriminate | intros [= <- <-]; auto].
  - intros [s tx h] Htx. simpl in Htx. subst tx. reflexivity.
  - split; reflexivity.
Qed.

Lemma player_rejections_witness :
  (load_schedule player_new [] = load_schedule player_new [] /\
   ((NoSongLoaded = PlaybackAlreadyRunning /\ worker_handle (load_schedule player_new []) <> None) \/
    (NoSongLoaded = NoSongLoaded /\ worker_handle (load_schedule player_new []) = None /\
     schedule (load_schedule player_new []) = []))) /\
  (exists e, play (load_schedule player_new []) false = (load_schedule player_new [], Err e)) /\
  (load_schedule player_new [] = load_schedule player_new [] /\
   control_tx (load_schedule player_new []) = None) /\
  stop player_new = (player_new, Err NoWorkerRunning).
Proof.
  split; [|split; [|split]].
  - exact (proj1 player_rejections (load_schedule player_new []) true
             (load_schedule player_new []) NoSongLoaded eq_refl).
  - exact (proj1 (proj2 player_rejections) (load_schedule player_new []) false
             (or_intror eq_refl)).
  - exact (proj1 (proj2 (proj2 player_rejections)) (load_schedule player_new [])
             (load_schedule player_new []) NoWorkerRunning eq_refl).
  - exact (proj1 (proj2 (proj2 (proj2 player_rejections))) player_new eq_refl).
Defined.

(* ================================================================== *)
(** * Further properties of the code *)

(** ** The key mappings *)

Lemma mappings_ok :
  Forall (fun '(m, i) => 69 <= m <= 93 /\ keys i <> [] /\ ~ In PLAY_KEY (keys i) /\
                         NoDup (keys i)) MAPPINGS.
Proof.
  apply Forall_forall. intros [m i] H.
  cbv [MAPPINGS] in H.
  repeat (destruct H as [H|H]; [injection H as <- <-;
    cbv [keys PLAY_KEY OCTAVE_MODIFIER SEMITONE_MODIFIER DIR_1_RIGHT DIR_2_DOWNRIGHT
         DIR_3_DOWN DIR_4_DOWNLEFT DIR_5_LEFT DIR_6_UPLEFT DIR_7_UP DIR_8_UPRIGHT];
    split; [lia|]; split; [discriminate|]; split;
    [ simpl; intros Hin; repeat (destruct Hin as [Hin|Hin]; [discriminate|]); exact Hin
    | repeat (apply NoDup_cons; [simpl; intros Hin;
                                 repeat (destruct Hin as [Hin|Hin]; [discriminate|]); exact Hin|]);
      apply NoDup_nil ] |]).
  destruct H.
Qed.

(** [input_for_midi] finds an input exactly for the pitches 69 to 93 (A4
    to A6); each input it returns is the table's entry for that pitch and
    holds at least one key, no key twice, and never the play key. *)
Theorem input_for_midi_spec :
  (forall m, (exists i, input_for_midi m = Some i) <-> 69 <= m <= 93) /\
  (forall m i, input_for_midi m = Some i ->
     In (m, i) MAPPINGS /\ keys i <> [] /\ ~ In PLAY_KEY (keys i) /\ NoDup (keys i)).
Proof.
  assert (Hsome : forall m i, input_for_midi m = Some i -> In (m, i) MAPPINGS).
  { intros m i. unfold input_for_midi.
    destruct (find _ MAPPINGS) as [[m' i']|] eqn:E; [|discriminate].
    intros H. injection H as <-. apply find_some in E. destruct E as [Hin Heq].
    apply Z.eqb_eq in Heq. subst m'. exact Hin. }
  pose proof (proj1 (Forall_forall _ _) mappings_ok) as Hok.
  split.
  - intros m. split.
    + intros [i Hi]. exact (proj1 (Hok (m, i) (Hsome m i Hi))).
    + intros Hm.
      assert (Hk : exists k, (k < 25)%nat /\ m = 69 + Z.of_nat k)
        by (exists (Z.to_nat (m - 69)); lia).
      destruct Hk as [k [Hk ->]].
      do 25 (destruct k as [|k]; [eexists; reflexivity|]). lia.
  - intros m i Hi. pose proof (Hsome m i Hi) as Hin.
    split; [exact Hin | exact (proj2 (Hok (m, i) Hin))].
Qed.

(** ** [all_keys_up] *)

Lemma keys_up_from_trace (key_result : list Action -> Action -> bool)
  (l : list (Z * Input)) :
  forall tr0, exists n,
    snd (keys_up_from key_result l tr0) = tr0 ++ firstn n (map (fun '(_, i) => KeyUp i) l) /\
    (fst (keys_up_from key_result l tr0) = Some tt -> n = List.length l).
Proof.
  induction l as [|[m i] l' IH]; intros tr0.
  - exists 0%nat. simpl. rewrite app_nil_r. auto.
  - simpl. unfold ebind, key_up, key_call.
    destruct (key_result tr0 (KeyUp i)).
    + destruct (IH (tr0 ++ [KeyUp i])) as [n [Htr Hok]].
      exists (S n). rewrite Htr, <- app_assoc. split; [reflexivity|].
      intros H. rewrite (Hok H). reflexivity.
    + exists 1%nat. split; [reflexivity | discriminate].
Qed.

(** [all_keys_up] releases the inputs of [MAPPINGS] one by one in table
    order and stops at the first failing release; when it returns [Ok] all
    25 were released. Every call it makes is a release of an input without
    the play key: it never releases the play key. *)
Theorem all_keys_up_trace :
  forall (key_result : list Action -> Action -> bool) (tr0 : list Action),
  exists n,
    snd (all_keys_up key_result tr0) = tr0 ++ firstn n (map (fun '(_, i) => KeyUp i) MAPPINGS) /\
    (fst (all_keys_up key_result tr0) = Some tt -> n = 25%nat) /\
    (forall a, In a (firstn n (map (fun '(_, i) => KeyUp i) MAPPINGS)) ->
       exists i, a = KeyUp i /\ ~ In PLAY_KEY (keys i)).
Proof.
  intros key_result tr0.
  destruct (keys_up_from_trace key_result MAPPINGS tr0) as [n [Htr Hok]].
  exists n. split; [exact Htr|]. split; [exact Hok|].
  intros a Ha.
  assert (Ha' : In a (map (fun '(_, i) => KeyUp i) MAPPINGS)).
  { rewrite <- (firstn_skipn n (map (fun '(_, i) => KeyUp i) MAPPINGS)).
    apply in_or_app. left. exact Ha. }
  apply in_map_iff in Ha'. clear Ha. rename Ha' into Ha.
  destruct Ha as [[m i] [<- Hin]].
  exists i. split; [reflexivity|].
  exact (proj1 (proj2 (proj2 (proj1 (Forall_forall _ _) mappings_ok (m, i) Hin)))).
Qed.

(** ** Timing of [key_press] *)

Lemma Qlt_bool_spec (a b : Q) : Qlt_bool a b = true <-> (a < b)%Q.
Proof.
  unfold Qlt_bool. destruct (Qlt_le_dec a b) as [H|H]; split; intros H'.
  - exact H.
  - reflexivity.
  - discriminate.
  - exfalso. apply (Qlt_not_le _ _ H' H).
Qed.

Lemma sleep_total_app (l1 l2 : list Action) :
  (sleep_total (l1 ++ l2) == sleep_total l1 + sleep_total l2)%Q.
Proof.
  induction l1 as [|a l1 IH]; simpl.
  - ring.
  - destruct a; rewrite IH; ring.
Qed.

Lemma articulate_spec (hold_ms articulation : Q) :
  (0 < hold_ms)%Q ->
  let '(f, r) := articulate hold_ms articulation in
  (f + r == hold_ms /\ 0 < f /\ 0 <= r)%Q /\
  ((0 < articulation /\ articulation < 1)%Q ->
     f = (hold_ms * articulation)%Q /\ r = (hold_ms * (1 - articulation))%Q) /\
  (~ (0 < articulation /\ articulation < 1)%Q -> f = hold_ms /\ r = 0%Q).
Proof.
  intros Hh. unfold articulate.
  destruct (Qlt_bool 0 articulation && Qlt_bool articulation 1) eqn:Ea.
  - apply andb_prop in Ea. destruct Ea as [E1 E2].
    apply Qlt_bool_spec in E1. apply Qlt_bool_spec in E2.
    assert (Hp : (0 < hold_ms * articulation)%Q) by (apply Qmult_lt_0_compat; assumption).
    destruct (Qle_bool (hold_ms * articulation) 0) eqn:Ez.
    { apply Qle_bool_iff in Ez. exfalso. apply (Qlt_not_le _ _ Hp Ez). }
    assert (Hr : (0 <= hold_ms * (1 - articulation))%Q).
    { apply Qmult_le_0_compat; lra. }
    refine (conj (conj _ (conj Hp Hr)) (conj (fun _ => conj eq_refl eq_refl) _)).
    + ring.
    + intros Hn. exfalso. apply Hn. split; assumption.
  - destruct (Qle_bool hold_ms 0) eqn:Ez.
    { apply Qle_bool_iff in Ez. exfalso. apply (Qlt_not_le _ _ Hh Ez). }
    refine (conj (conj _ (conj Hh (Qle_refl 0))) (conj _ (fun _ => conj eq_refl eq_refl))).
    + ring.
    + intros [H1 H2]. apply Qlt_bool_spec in H1. apply Qlt_bool_spec in H2.
      rewrite H1, H2 in Ea. discriminate.
Qed.

Lemma key_press_ok_trace (key_result : list Action -> Action -> bool) (input : Input)
  (hold_ms articulation : Q) (tr0 : list Action) :
  fst (key_press key_result input hold_ms articulation tr0) = Some tt ->
  snd (key_press key_result input hold_ms articulation tr0)
  = tr0 ++ envelope input (fst (articulate hold_ms articulation))
                          (snd (articulate hold_ms articulation)).
Proof.
  unfold key_press.
  destruct (Qle_bool hold_ms 0); [discriminate|].
  destruct (articulate hold_ms articulation) as [f rel]. simpl.
  unfold envelope, ebind, key_down, key_up, key_call, sleep, eret.
  destruct (key_result tr0 (KeyDown input)); [|discriminate].
  destruct (key_result _ (KeyDown play_input)); [|discriminate].
  destruct (key_result _ (KeyUp play_input)); [|discriminate].
  destruct (key_result _ (KeyUp input)); [|discriminate].
  intros _. destruct (Qlt_bool 0 rel); simpl; rewrite <- ?app_assoc; reflexivity.
Qed.

(** [key_press] rejects a hold of at most 0 ms before making any call.
    Otherwise the hold splits into a key hold [f] and a release rest [r]
    with [f + r = hold_ms], [f > 0] and [r >= 0]: [f = hold_ms *
    articulation] for an articulation strictly between 0 and 1, [f =
    hold_ms] and no rest for any other; and a press that returns [Ok] has
    slept [hold_ms + 2] ms in all. *)
Theorem key_press_timing :
  forall (key_result : list Action -> Action -> bool) (input : Input)
         (hold_ms articulation : Q) (tr0 : list Action),
  ((hold_ms <= 0)%Q -> key_press key_result input hold_ms articulation tr0 = (None, tr0)) /\
  ((0 < hold_ms)%Q ->
   (let '(f, r) := articulate hold_ms articulation in
    (f + r == hold_ms /\ 0 < f /\ 0 <= r)%Q /\
    ((0 < articulation /\ articulation < 1)%Q ->
       f = (hold_ms * articulation)%Q /\ r = (hold_ms * (1 - articulation))%Q) /\
    (~ (0 < articulation /\ articulation < 1)%Q -> f = hold_ms /\ r = 0%Q)) /\
   (fst (key_press key_result input hold_ms articulation tr0) = Some tt ->
    (sleep_total (snd (key_press key_result input hold_ms articulation tr0))
     == sleep_total tr0 + hold_ms + 2)%Q)).
Proof.
  intros key_result input hold_ms articulation tr0. split.
  - intros Hle. unfold key_press.
    assert (E : Qle_bool hold_ms 0 = true) by (apply Qle_bool_iff; exact Hle).
    rewrite E. reflexivity.
  - intros Hh. split; [exact (articulate_spec hold_ms articulation Hh)|].
    intros Hok. rewrite (key_press_ok_trace key_result input hold_ms articulation tr0 Hok).
    pose proof (articulate_spec hold_ms articulation Hh) as Hs.
    destruct (articulate hold_ms articulation) as [f r]. simpl.
    destruct Hs as [[Hsum [Hf Hr]] _].
    rewrite sleep_total_app. unfold envelope.
    rewrite sleep_total_app.
    destruct (Qlt_bool 0 r) eqn:Er; simpl.
    + rewrite <- Hsum. ring.
    + assert (Hr0 : (r == 0)%Q).
      { apply Qle_antisym; [|exact Hr]. apply Qnot_lt_le. intros Hlt.
        apply Qlt_bool_spec in Hlt. congruence. }
      rewrite <- Hsum, Hr0. ring.
Qed.

Lemma key_press_timing_witness :
  key_press all_ok (mkInput [OCTAVE_MODIFIER; DIR_1_RIGHT] "A4 (69)") 0 (3 # 4) [] = (None, []) /\
  (sleep_total (snd (key_press all_ok (mkInput [OCTAVE_MODIFIER; DIR_1_RIGHT] "A4 (69)") 400 (3 # 4) []))
   == sleep_total [] + 400 + 2)%Q.
Proof.
  split.
  - apply (proj1 (key_press_timing all_ok (mkInput [OCTAVE_MODIFIER; DIR_1_RIGHT] "A4 (69)") 0 (3 # 4) [])).
    apply Qle_refl.
  - apply (proj2 (proj2 (key_press_timing all_ok (mkInput [OCTAVE_MODIFIER; DIR_1_RIGHT] "A4 (69)")
                           400 (3 # 4) []) ltac:(reflexivity))).
    reflexivity.
Defined.

(** ** Command-line parsing *)

Lemma ascii_to_lower_idem (c : Ascii.ascii) : ascii_to_lower (ascii_to_lower c) = ascii_to_lower c.
Proof. destruct c as [[] [] [] [] [] [] [] []]; reflexivity. Qed.

Lemma to_lowercase_idem (s : string) : to_lowercase (to_lowercase s) = to_lowercase s.
Proof. induction s as [|c s IH]; simpl; [reflexivity|]. rewrite ascii_to_lower_idem, IH. reflexivity. Qed.

Lemma clamp_range (x : Q) : (0 <= clamp x 0 1 <= 1)%Q.
Proof.
  unfold clamp, Qlt_bool.
  destruct (Qlt_le_dec x 0); [destruct (Qlt_le_dec 1 0) | destruct (Qlt_le_dec 1 x)]; lra.
Qed.

(** [parse_articulation] always yields a hold fraction between 0 and 1 (for
    a custom value that is a number), and ignores the case of the style
    name. *)
Theorem parse_articulation_spec :
  forall (input : string) (custom : option Q),
  (0 <= parse_articulation input custom <= 1)%Q /\
  parse_articulation (to_lowercase input) custom = parse_articulation input custom.
Proof.
  intros input custom. split.
  - unfold parse_articulation.
    destruct (_ || _); [lra|].
    destruct (_ || _); [lra|].
    destruct (_ || _); [lra|].
    destruct (_ || _ || _); [lra|].
    destruct (_ || _); [|lra].
    destruct custom as [c|]; [apply clamp_range | lra].
  - unfold parse_articulation. rewrite to_lowercase_idem. reflexivity.
Qed.

Lemma length_sort_stable {A : Type} (lt : A -> A -> bool) (l : list A) :
  List.length (sort_stable lt l) = List.length l.
Proof.
  unfold sort_stable.
  assert (Hins : forall x acc, List.length (insert_stable lt x acc) = S (List.length acc)).
  { intros x acc. induction acc as [|y acc IH]; simpl; [reflexivity|].
    destruct (lt x y); simpl; [reflexivity | rewrite IH; reflexivity]. }
  assert (Hgen : forall acc, List.length (fold_left (fun acc x => insert_stable lt x acc) l acc)
                             = (List.length l + List.length acc)%nat).
  { induction l as [|x l' IH]; intros acc; simpl; [reflexivity|].
    rewrite IH, Hins. lia. }
  rewrite Hgen. simpl. lia.
Qed.

(** [parse_policy] ignores case; it selects [Densest] exactly for "a",
    "d", "auto" and "densest", falls back to [Highest] for a name it does
    not know, and [reduce_to_monophonic] panics ([todo!()]) under [Densest]
    as soon as it is given one event. *)
Theorem parse_policy_spec :
  (forall s, parse_policy (to_lowercase s) = parse_policy s) /\
  (forall s, parse_policy s = Densest <-> In (to_lowercase s) ["a"; "d"; "auto"; "densest"]%string) /\
  (forall s, ~ In (to_lowercase s) ["h"; "highest"; "lw"; "lowest"; "lu"; "loudest";
                                     "a"; "d"; "auto"; "densest"]%string ->
             parse_policy s = Highest) /\
  (forall events merge, events <> [] -> reduce_to_monophonic events Densest merge = None).
Proof.
  split; [|split; [|split]].
  - intros s. unfold parse_policy. rewrite to_lowercase_idem. reflexivity.
  - intros s. unfold parse_policy. generalize (to_lowercase s) as l. intros l. split.
    + destruct (String.eqb l "h" || String.eqb l "highest"); [discriminate|].
      destruct (String.eqb l "lw" || String.eqb l "lowest"); [discriminate|].
      destruct (String.eqb l "lu" || String.eqb l "loudest"); [discriminate|].
      destruct (String.eqb l "a" || String.eqb l "d" || String.eqb l "auto"
                || String.eqb l "densest") eqn:E; [|discriminate].
      intros _. rewrite !orb_true_iff, !String.eqb_eq in E. simpl. intuition.
    + intros Hin. simpl in Hin. destruct Hin as [<-|[<-|[<-|[<-|[]]]]]; reflexivity.
  - intros s Hn. unfold parse_policy. revert Hn. generalize (to_lowercase s) as l. intros l Hn.
    destruct (String.eqb l "h" || String.eqb l "highest"); [reflexivity|].
    destruct (String.eqb l "lw" || String.eqb l "lowest") eqn:E1.
    { rewrite !orb_true_iff, !String.eqb_eq in E1. exfalso. apply Hn. simpl. intuition. }
    destruct (String.eqb l "lu" || String.eqb l "loudest") eqn:E2.
    { rewrite !orb_true_iff, !String.eqb_eq in E2. exfalso. apply Hn. simpl. intuition. }
    destruct (String.eqb l "a" || String.eqb l "d" || String.eqb l "auto"
              || String.eqb l "densest") eqn:E3; [|reflexivity].
    rewrite !orb_true_iff, !String.eqb_eq in E3. exfalso. apply Hn. simpl. intuition.
  - intros events merge Hne. unfold reduce_to_monophonic.
    destruct events as [|e0 events']; [congruence|].
    destruct (sorted_points (e0 :: events')) as [|p ps] eqn:Ep.
    { apply (f_equal (@List.length Point)) in Ep. unfold sorted_points in Ep.
      rewrite length_sort_stable in Ep. discriminate. }
    simpl. unfold sweep_step. destruct (if is_start p then _ else _). reflexivity.
Qed.

Lemma parse_policy_spec_witness :
  parse_policy "Auto"%string = Densest /\ parse_policy "Densist"%string = Highest /\
  reduce_to_monophonic [ev 69 100 0 500] Densest false = None.
Proof.
  split; [|split].
  - apply (proj2 (proj1 (proj2 parse_policy_spec) "Auto"%string)). simpl. auto.
  - apply (proj1 (proj2 (proj2 parse_policy_spec)) "Densist"%string).
    simpl. intros H. repeat (destruct H as [H|H]; [discriminate|]). exact H.
  - apply (proj2 (proj2 (proj2 parse_policy_spec))). discriminate.
Defined.

(** ** Pairing note-ons with note-offs *)

Lemma open_get_set_same (k : Z * Z) (s : list (Z * Z)) (m : OpenNotes) :
  open_get k (open_set k s m) = Some s.
Proof.
  induction m as [|[k' s'] m' IH]; simpl.
  - rewrite !Z.eqb_refl. reflexivity.
  - destruct (Z.eqb (fst k) (fst k') && Z.eqb (snd k) (snd k')) eqn:E; simpl.
    + rewrite E. reflexivity.
    + rewrite E. exact IH.
Qed.

Lemma open_get_set_other (k k2 : Z * Z) (s : list (Z * Z)) (m : OpenNotes) :
  k2 <> k -> open_get k2 (open_set k s m) = open_get k2 m.
Proof.
  intros Hne. induction m as [|[k' s'] m' IH]; simpl.
  - destruct (Z.eqb (fst k2) (fst k) && Z.eqb (snd k2) (snd k)) eqn:E; [|reflexivity].
    apply andb_prop in E. destruct E as [E1 E2]. apply Z.eqb_eq in E1. apply Z.eqb_eq in E2.
    exfalso. apply Hne. destruct k, k2. simpl in *. subst. reflexivity.
  - destruct (Z.eqb (fst k) (fst k') && Z.eqb (snd k) (snd k')) eqn:E; simpl.
    + apply andb_prop in E. destruct E as [E1 E2]. apply Z.eqb_eq in E1. apply Z.eqb_eq in E2.
      rewrite <- E1, <- E2.
      destruct (Z.eqb (fst k2) (fst k) && Z.eqb (snd k2) (snd k)) eqn:E'; [|reflexivity].
      apply andb_prop in E'. destruct E' as [E3 E4]. apply Z.eqb_eq in E3. apply Z.eqb_eq in E4.
      exfalso. apply Hne. destruct k, k2. simpl in *. subst. reflexivity.
    + rewrite IH. reflexivity.
Qed.

(** A note-on of nonzero velocity pushes its tick and velocity on the stack
    of its (channel, key); the next note-off of that (channel, key) pops it
    into the interval from the note-on's tick to its own, with the note-on's
    velocity, and leaves the stack as it was before the note-on: the
    latest open note-on is closed first. Neither touches the stacks of
    other keys. A note-off with no open note-on changes nothing, and a
    note-on of velocity 0 acts as a note-off. *)
Theorem note_on_off_pairing :
  forall (st : ExtractState) (ch key t1 vel t2 v2 : Z),
  vel <> 0 ->
  (exists st1 st2,
     extract_event st t1 (MidiNoteOn ch key vel) = Some st1 /\
     open_get (ch, key) (open_notes st1)
       = Some ((t1, vel) :: match open_get (ch, key) (open_notes st) with
                             | Some s => s | None => [] end) /\
     extract_event st1 t2 (MidiNoteOff ch key v2) = Some st2 /\
     intervals st2 = mkInterval key t1 t2 vel ch :: intervals st /\
     open_get (ch, key) (open_notes st2)
       = Some (match open_get (ch, key) (open_notes st) with Some s => s | None => [] end) /\
     (forall k, k <> (ch, key) ->
        open_get k (open_notes st1) = open_get k (open_notes st) /\
        open_get k (open_notes st2) = open_get k (open_notes st))) /\
  ((open_get (ch, key) (open_notes st) = None \/ open_get (ch, key) (open_notes st) = Some []) ->
     extract_event st t2 (MidiNoteOff ch key v2) = Some st) /\
  extract_event st t2 (MidiNoteOn ch key 0) = extract_event st t2 (MidiNoteOff ch key v2).
Proof.
  intros st ch key t1 vel t2 v2 Hvel. split; [|split].
  - set (old := match open_get (ch, key) (open_notes st) with Some s => s | None => [] end).
    simpl. destruct (Z.eqb vel 0) eqn:Ev; [apply Z.eqb_eq in Ev; contradiction|].
    fold old.
    set (st1 := mkExtract (tempo_changes st) (intervals st)
                  (open_set (ch, key) ((t1, vel) :: old) (open_notes st)) (track_name st)).
    exists st1.
    assert (H1 : open_get (ch, key) (open_notes st1) = Some ((t1, vel) :: old))
      by (apply open_get_set_same).
    eexists. split; [reflexivity|]. split; [exact H1|]. split; [reflexivity|].
    unfold close_note. rewrite H1. simpl.
    split; [reflexivity|]. split; [apply open_get_set_same|].
    intros k Hk. split.
    + apply open_get_set_other. exact Hk.
    + rewrite open_get_set_other by exact Hk. apply open_get_set_other. exact Hk.
  - intros Hnone. simpl. unfold close_note.
    destruct Hnone as [-> | ->]; reflexivity.
  - reflexivity.
Qed.

Lemma note_on_off_pairing_witness :
  exists st1 st2,
    extract_event extract_init 0 (MidiNoteOn 0 69 100) = Some st1 /\
    open_get (0, 69) (open_notes st1)
      = Some ((0, 100) :: match open_get (0, 69) (open_notes extract_init) with
                          | Some s => s | None => [] end) /\
    extract_event st1 480 (MidiNoteOff 0 69 0) = Some st2 /\
    intervals st2 = mkInterval 69 0 480 100 0 :: intervals extract_init /\
    open_get (0, 69) (open_notes st2)
      = Some (match open_get (0, 69) (open_notes extract_init) with Some s => s | None => [] end) /\
    (forall k, k <> (0, 69) ->
       open_get k (open_notes st1) = open_get k (open_notes extract_init) /\
       open_get k (open_notes st2) = open_get k (open_notes extract_init)).
Proof.
  exact (proj1 (note_on_off_pairing extract_init 0 69 0 100 480 0 ltac:(discriminate))).
Defined.

(** ** The player's run state over a sequence of calls *)

Definition handle_has_sender (p : Player) : Prop :=
  worker_handle p <> None -> control_tx p <> None.

Lemma player_step_inv (p : Player) (op : PlayerOp) :
  handle_has_sender p -> handle_has_sender (player_step p op).
Proof.
  unfold handle_has_sender. destruct p as [s tx h]. intros Hinv.
  destruct op as [events | join | | ]; simpl.
  - exact Hinv.
  - unfold play. simpl. destruct h as [h|]; [exact Hinv|].
    destruct s; [exact Hinv|]. destruct join; simpl; discriminate.
  - unfold stop. simpl. destruct tx; simpl; [intros H; contradiction H; reflexivity | exact Hinv].
  - unfold worker_exits. simpl in *. destruct h; simpl.
    + intros _. apply Hinv. discriminate.
    + exact Hinv.
Qed.

Lemma run_player_inv (ops : list PlayerOp) :
  forall p, handle_has_sender p -> handle_has_sender (run_player p ops).
Proof.
  induction ops as [|op ops IH]; intros p H; simpl; [exact H|].
  apply IH, player_step_inv, H.
Qed.

(** Whatever calls were made before, one after the other, on a new player:
    a stored worker handle always comes with a stored control sender. So
    when [play] is rejected as already running, [stop] succeeds and clears
    the handle, after which [play] succeeds again if a song is loaded. *)
Theorem player_recovers_by_stop :
  forall (ops : list PlayerOp),
  let p := run_player player_new ops in
  (worker_handle p <> None -> control_tx p <> None) /\
  (forall join, snd (play p join) = Err PlaybackAlreadyRunning ->
     snd (stop p) = Ok /\ worker_handle (fst (stop p)) = None /\
     (schedule p <> [] -> snd (play (fst (stop p)) join) = Ok)).
Proof.
  intros ops p.
  assert (Hinv : handle_has_sender p)
    by (apply run_player_inv; unfold handle_has_sender; simpl; intros H; contradiction H; reflexivity).
  split; [exact Hinv|].
  intros join Hrej. destruct p as [s tx h].
  unfold handle_has_sender in Hinv. simpl in Hinv.
  assert (Hh : h <> None).
  { intros ->. unfold play in Hrej. simpl in Hrej.
    destruct s; [discriminate|]. destruct join; discriminate. }
  destruct tx as [tx|]; [|contradiction (Hinv Hh); reflexivity].
  unfold stop. simpl. split; [reflexivity|]. split; [reflexivity|].
  intros Hs. unfold play. simpl. destruct s; [contradiction Hs; reflexivity|].
  destruct join; reflexivity.
Qed.

Lemma player_recovers_by_stop_witness :
  let p := run_player player_new [OpLoadSong [ev 69 100 0 500]; OpPlay false; OpWorkerExits] in
  snd (play p true) = Err PlaybackAlreadyRunning /\ schedule p <> [] /\
  snd (stop p) = Ok /\ worker_handle (fst (stop p)) = None /\
  snd (play (fst (stop p)) true) = Ok.
Proof.
  intros p.
  assert (Hrej : snd (play p true) = Err PlaybackAlreadyRunning) by reflexivity.
  assert (Hs : schedule p <> []) by discriminate.
  destruct (proj2 (player_recovers_by_stop [OpLoadSong [ev 69 100 0 500]; OpPlay false; OpWorkerExits])
              true Hrej) as [H1 [H2 H3]].
  split; [exact Hrej|]. split; [exact Hs|]. split; [exact H1|]. split; [exact H2|]. exact (H3 Hs).
Defined.

(** ** [load_song] and the import pipeline of [main] *)

Lemma input_for_midi_some (m : Z) : 69 <= m <= 93 -> exists i, input_for_midi m = Some i.
Proof.
  intros Hm.
  assert (Hk : exists k, (k < 25)%nat /\ m = 69 + Z.of_nat k) by (exists (Z.to_nat (m - 69)); lia).
  destruct Hk as [k [Hk ->]].
  do 25 (destruct k as [|k]; [eexists; reflexivity|]). lia.
Qed.

Lemma schedule_of_events_spec (events : list Event) (se : ScheduledEvent) :
  In se (schedule_of_events events) ->
  exists e, In e events /\ input_for_midi (midi (note e)) = Some (se_input se) /\
            se_time_ms se = time_ms e /\ se_duration_ms se = duration_ms e.
Proof.
  unfold schedule_of_events. intros H. apply in_flat_map in H. destruct H as [e [He Hse]].
  destruct (input_for_midi (midi (note e))) as [i|] eqn:Ei; [|destruct Hse].
  destruct Hse as [<-|[]]. exists e. simpl. auto.
Qed.

Lemma schedule_of_events_length (events : list Event) :
  List.length (schedule_of_events events)
  = List.length (filter (fun e => match input_for_midi (midi (note e)) with
                                  | Some _ => true | None => false end) events).
Proof.
  induction events as [|e events IH]; simpl; [reflexivity|].
  destruct (input_for_midi (midi (note e))); simpl; rewrite <- ?IH; reflexivity.
Qed.

(** [load_song] schedules exactly the events whose pitch has a key
    mapping, each with its time, duration and input, sorted by time; it
    does not touch the run state. *)
Theorem load_song_schedule :
  forall (p : Player) (events : list Event),
  let q := load_song p events in
  Sorted (fun a b => (se_time_ms a <= se_time_ms b)%Q) (schedule q) /\
  (forall se, In se (schedule q) ->
     exists e, In e events /\ input_for_midi (midi (note e)) = Some (se_input se) /\
               se_time_ms se = time_ms e /\ se_duration_ms se = duration_ms e) /\
  List.length (schedule q)
  = List.length (filter (fun e => match input_for_midi (midi (note e)) with
                                  | Some _ => true | None => false end) events) /\
  control_tx q = control_tx p /\ worker_handle q = worker_handle p.
Proof.
  intros p events q. split; [|split; [|split; [|split]]]; try reflexivity.
  - apply (sort_stable_sorted (fun a b => Qlt_bool (se_time_ms a) (se_time_ms b))).
    + intros x y H. apply Qlt_bool_spec in H. apply Qlt_le_weak. exact H.
    + intros x y H. apply Qnot_lt_le. intros H'. apply Qlt_bool_spec in H'. congruence.
  - intros se Hse. apply sort_stable_in in Hse. apply schedule_of_events_spec. exact Hse.
  - simpl. rewrite length_sort_stable. apply schedule_of_events_length.
Qed.

(** What [main] does: import with the clip range (69, 93), then load. The
    clip range is the range of [MAPPINGS], so [load_song] skips no event of
    an imported song, and every scheduled press holds at least 2 ms, so
    [key_press] never rejects its hold. *)
Theorem imported_song_fully_scheduled :
  forall (timing : Timing) (tracks : list (list TrackEvent)) (t : Z) (policy : PolyPolicy)
         (merge : bool) (out : list Event) (p : Player),
  midi_tracks_to_song timing tracks t policy merge (Some (69, 93)) = Some out ->
  List.length (schedule (load_song p out)) = List.length out /\
  (forall se, In se (schedule (load_song p out)) -> (EPSILON_MS <= se_duration_ms se)%Q).
Proof.
  intros timing tracks t policy merge out p H.
  assert (Hpitch : forall e, In e out -> 69 <= midi (note e) <= 93).
  { intros e He.
    destruct (midi_tracks_to_song_inv timing tracks t policy merge _ out H)
      as [tpq [st [reduced [_ [_ [Hred ->]]]]]].
    apply cull_final_spec in He. destruct He as [He _].
    refine (reduce_pitch (fun p => 69 <= p <= 93) _ policy merge reduced _ Hred e He).
    intros e' He'. unfold sort_by_time in He'. apply sort_stable_in, raw_events_in in He'.
    destruct He' as [iv [_ Hiv]].
    destruct (interval_to_event_spec _ _ _ _ _ _ Hiv) as [Htc _].
    destruct (transpose_clip_spec _ _ _ _ Htc) as [_ [H2 _]]. apply H2. reflexivity. }
  assert (Hdur : forall e, In e out -> (EPSILON_MS <= duration_ms e)%Q).
  { intros e He.
    destruct (midi_tracks_to_song_inv timing tracks t policy merge _ out H)
      as [tpq [st [reduced [_ [_ [_ ->]]]]]].
    apply cull_final_spec in He. exact (proj2 He). }
  split.
  - simpl. rewrite length_sort_stable, schedule_of_events_length.
    clear H Hdur. induction out as [|e out IH]; simpl; [reflexivity|].
    destruct (input_for_midi_some (midi (note e)) (Hpitch e (or_introl eq_refl))) as [i ->].
    simpl. rewrite IH; [reflexivity|]. intros e' He'. apply Hpitch. right. exact He'.
  - intros se Hse. simpl in Hse. apply sort_stable_in, schedule_of_events_spec in Hse.
    destruct Hse as [e [He [_ [_ ->]]]]. apply Hdur, He.
Qed.

Lemma imported_song_fully_scheduled_witness :
  let out := match midi_tracks_to_song (Metrical 480) [sample_track] 0 Highest false (Some (69, 93)) with
             | Some out => out | None => [] end in
  midi_tracks_to_song (Metrical 480) [sample_track] 0 Highest false (Some (69, 93)) = Some out /\
  List.length (schedule (load_song player_new out)) = List.length out /\
  (forall se, In se (schedule (load_song player_new out)) -> (EPSILON_MS <= se_duration_ms se)%Q).
Proof.
  intros out.
  assert (H : midi_tracks_to_song (Metrical 480) [sample_track] 0 Highest false (Some (69, 93))
              = Some out) by (vm_compute; reflexivity).
  split; [exact H|].
  exact (imported_song_fully_scheduled (Metrical 480) [sample_track] 0 Highest false out player_new H).
Defined.

(** ** Durations after the reduction *)

Lemma sweep_step_long (policy : PolyPolicy) (st st' : SweepState) (pt : Point) :
  (forall e, In e (result st) -> (EPSILON_MS < duration_ms e)%Q) ->
  sweep_step policy st pt = Some st' ->
  forall e, In e (result st') -> (EPSILON_MS < duration_ms e)%Q.
Proof.
  intros Hst. unfold sweep_step.
  destruct (if is_start pt then _ else _) as [act lookup].
  destruct (choose policy act lookup) as [chosen|]; [|discriminate].
  assert (Hres : forall e, In e (match current_note st, current_start st with
                                 | Some cn, Some cs =>
                                     if Qlt_le_dec (cs + EPSILON_MS) (pt_time_ms pt)
                                     then mkEvent (mkNote cn (pt_velocity pt)) cs (pt_time_ms pt - cs)%Q
                                            :: result st
                                     else result st
                                 | _, _ => result st
                                 end) -> (EPSILON_MS < duration_ms e)%Q).
  { destruct (current_note st) as [cn|]; destruct (current_start st) as [cs|]; try exact Hst.
    destruct (Qlt_le_dec (cs + EPSILON_MS) (pt_time_ms pt)) as [Hlt|_]; [|exact Hst].
    intros e [<-|He]; [simpl; lra | exact (Hst e He)]. }
  destruct (option_Z_eqb chosen (current_note st)).
  - intros H. injection H as <-. exact Hst.
  - destruct chosen; intros H; injection H as <-; exact Hres.
Qed.

Lemma sweep_long (policy : PolyPolicy) (pts : list Point) :
  forall st st', (forall e, In e (result st) -> (EPSILON_MS < duration_ms e)%Q) ->
  sweep policy st pts = Some st' ->
  forall e, In e (result st') -> (EPSILON_MS < duration_ms e)%Q.
Proof.
  induction pts as [|pt pts IH]; intros st st' Hst H; simpl in H.
  - injection H as <-. exact Hst.
  - destruct (sweep_step policy st pt) as [st1|] eqn:E; [|discriminate].
    exact (IH st1 st' (sweep_step_long policy st st1 pt Hst E) H).
Qed.

Lemma merge_fold_long (merge : bool) (l : list Event) :
  forall acc, (forall e, In e acc -> (EPSILON_MS < duration_ms e)%Q) ->
  (forall e, In e l -> (EPSILON_MS < duration_ms e)%Q) ->
  forall e, In e (fold_left (merge_step merge) l acc) -> (EPSILON_MS < duration_ms e)%Q.
Proof.
  induction l as [|x l IH]; intros acc Hacc Hl; simpl; [exact Hacc|].
  apply IH; [|intros e He; apply Hl; right; exact He].
  unfold merge_step. destruct acc as [|last rest].
  - intros e [<-|[]]. apply Hl. left. reflexivity.
  - destruct (merge && note_eqb (note last) (note x)
              && Qle_bool (Qabs (end_ms last - time_ms x)) EPSILON_MS).
    + intros e [<-|He]; [|apply Hacc; right; exact He].
      simpl. pose proof (Hacc last (or_introl eq_refl)) as Hlast.
      pose proof (Q.le_max_l (end_ms last) (end_ms x)) as Hmax.
      unfold end_ms in *. lra.
    + intros e [<-|He]; [apply Hl; left; reflexivity | apply Hacc; exact He].
Qed.

(** Every event [reduce_to_monophonic] returns lasts strictly more than
    the 2 ms epsilon (an event is only emitted when the boundary lies more
    than epsilon after its start, and merging only lengthens events), so
    the final cull of [midi_bytes_to_song] never removes anything. *)
Theorem reduce_output_longer_than_epsilon :
  forall (events : list Event) (policy : PolyPolicy) (merge : bool) (out : list Event),
  reduce_to_monophonic events policy merge = Some out ->
  (forall e, In e out -> (EPSILON_MS < duration_ms e)%Q) /\ cull_final out = out.
Proof.
  intros events policy merge out H.
  assert (Hlong : forall e, In e out -> (EPSILON_MS < duration_ms e)%Q).
  { unfold reduce_to_monophonic in H. destruct events as [|e0 events'].
    - injection H as <-. intros e [].
    - destruct (sweep policy sweep_init (sorted_points (e0 :: events'))) as [st|] eqn:Es;
        [|discriminate].
      injection H as <-. intros e He. unfold merge_pass in He. apply in_rev in He.
      refine (merge_fold_long merge _ [] _ _ e He); [intros ? []|].
      intros e' He'. apply in_rev in He'.
      exact (sweep_long policy _ sweep_init st ltac:(intros ? []) Es e' He'). }
  split; [exact Hlong|].
  unfold cull_final. clear H. induction out as [|e out IH]; simpl; [reflexivity|].
  destruct (Qlt_le_dec (duration_ms e) EPSILON_MS) as [Hlt|_].
  - exfalso. pose proof (Hlong e (or_introl eq_refl)). lra.
  - rewrite IH; [reflexivity|]. intros e' He'. apply Hlong. right. exact He'.
Qed.

Lemma reduce_output_longer_than_epsilon_witness :
  let out := match reduce_to_monophonic [ev 69 10 0 1000; ev 77 20 500 1000] Highest false with
             | Some out => out | None => [] end in
  reduce_to_monophonic [ev 69 10 0 1000; ev 77 20 500 1000] Highest false = Some out /\
  (forall e, In e out -> (EPSILON_MS < duration_ms e)%Q) /\ cull_final out = out.
Proof.
  intros out.
  assert (H : reduce_to_monophonic [ev 69 10 0 1000; ev 77 20 500 1000] Highest false = Some out)
    by (vm_compute; reflexivity).
  split; [exact H|].
  exact (reduce_output_longer_than_epsilon _ Highest false out H).
Defined.

(** ** The tempo map *)

Lemma insert_stable_complete {A : Type} (lt : A -> A -> bool) (x y : A) (l : list A) :
  y = x \/ In y l -> In y (insert_stable lt x l).
Proof.
  induction l as [|z l' IH]; simpl; intros [H|H].
  - left. symmetry. exact H.
  - destruct H.
  - destruct (lt x z); [left; symmetry; exact H | right; apply IH; left; exact H].
  - destruct (lt x z); destruct H as [H|H].
    + right. left. exact H.
    + right. right. exact H.
    + left. exact H.
    + right. apply IH. right. exact H.
Qed.

Lemma sort_stable_complete {A : Type} (lt : A -> A -> bool) (y : A) (l : list A) :
  In y l -> In y (sort_stable lt l).
Proof.
  unfold sort_stable.
  assert (Hgen : forall acc, In y l \/ In y acc ->
                             In y (fold_left (fun acc x => insert_stable lt x acc) l acc)).
  { induction l as [|x l' IH]; intros acc H; simpl in *.
    - destruct H as [[]|H]. exact H.
    - apply IH. destruct H as [[<-|H]|H].
      + right. apply insert_stable_complete. left. reflexivity.
      + left. exact H.
      + right. apply insert_stable_complete. right. exact H. }
  intros H. apply Hgen. left. exact H.
Qed.

(** The loop body of the segment construction. *)
Definition segment_step (ticks_per_quarter : Z)
  : Z * Q * Z * list TempoSegment -> Z * Z -> Z * Q * Z * list TempoSegment :=
  fun '(last_tick, ms_accum, last_mpqn, segs) '(tick, m) =>
    if Z.ltb tick last_tick then (last_tick, ms_accum, last_mpqn, segs)
    else
      let ms_accum :=
        if Z.ltb last_tick tick
        then (ms_accum + inject_Z (tick - last_tick) * inject_Z last_mpqn
                          / inject_Z ticks_per_quarter / 1000)%Q
        else ms_accum in
      (tick, ms_accum, m, mkSegment m tick ms_accum :: segs).

(** Position of [tick] in the linear piece of [seg]. *)
Definition seg_lin (tpq : Z) (seg : TempoSegment) (tick : Z) : Q :=
  (ms_at_start seg + inject_Z (tick - seg_start_tick seg) * inject_Z (mpqn seg)
                      / inject_Z tpq / 1000)%Q.

(** The segment [rfind] selects, on the segments newest first. *)
Fixpoint seg_pick (tick : Z) (g : TempoSegment) (rest : list TempoSegment) : TempoSegment :=
  match rest with
  | [] => g
  | h :: rest' => if Z.leb (seg_start_tick g) tick then g else seg_pick tick h rest'
  end.

(** Consecutive segments (newest first) join continuously. *)
Fixpoint seg_chain (tpq : Z) (g : TempoSegment) (rest : list TempoSegment) : Prop :=
  0 <= mpqn g /\
  match rest with
  | [] => True
  | h :: rest' => seg_start_tick h <= seg_start_tick g /\
                  (ms_at_start g == seg_lin tpq h (seg_start_tick g))%Q /\ seg_chain tpq h rest'
  end.

Definition seg_inv (tpq : Z) (st : Z * Q * Z * list TempoSegment) : Prop :=
  let '(lt, acc, lm, segs) := st in
  0 <= lt /\
  match segs with
  | [] => False
  | g :: rest => seg_start_tick g = lt /\ (ms_at_start g == acc)%Q /\ mpqn g = lm /\
                 seg_chain tpq g rest /\ (seg_lin tpq (seg_pick 0 g rest) 0 == 0)%Q
  end.

Lemma build_segments_eq (changes : list (Z * Z)) (tpq : Z) :
  build_segments changes tpq
  = let '(_, _, _, segs) := fold_left (segment_step tpq)
                              (sort_stable (fun a b => Z.ltb (fst a) (fst b)) changes)
                              (0, 0%Q, DEFAULT_MPQN, []) in rev segs.
Proof. reflexivity. Qed.

Lemma hd_rev {A : Type} (l : list A) (d : A) : hd d (rev l) = last l d.
Proof.
  induction l as [|a l _] using rev_ind; [reflexivity|].
  rewrite rev_app_distr, last_last. reflexivity.
Qed.

Lemma find_seg_pick (t : Z) (rest : list TempoSegment) :
  forall g d,
  match find (fun seg => Z.leb (seg_start_tick seg) t) (g :: rest) with
  | Some s => s | None => last (g :: rest) d end = seg_pick t g rest.
Proof.
  induction rest as [|h rest' IH]; intros g d; simpl.
  - destruct (Z.leb (seg_start_tick g) t); reflexivity.
  - destruct (Z.leb (seg_start_tick g) t); [reflexivity|].
    specialize (IH h d). simpl in IH. exact IH.
Qed.

Lemma ticks_to_ms_pick (g : TempoSegment) (rest : list TempoSegment) (tpq t : Z) :
  ticks_to_ms (rev (g :: rest)) tpq t = seg_lin tpq (seg_pick t g rest) t.
Proof.
  unfold ticks_to_ms. pose proof (hd_rev (g :: rest) g) as Hhd.
  remember (rev (g :: rest)) as r eqn:Hr. destruct r as [|x xs].
  - apply (f_equal (@List.length _)) in Hr. rewrite length_rev in Hr. discriminate.
  - change (x = last (g :: rest) g) in Hhd. rewrite Hr, rev_involutive, Hhd, (find_seg_pick t rest g g).
    reflexivity.
Qed.

Lemma seg_pick_here (t : Z) (g : TempoSegment) (rest : list TempoSegment) :
  seg_start_tick g <= t -> seg_pick t g rest = g.
Proof.
  intros H. destruct rest; simpl; [reflexivity|]. rewrite (proj2 (Z.leb_le _ _) H). reflexivity.
Qed.

Lemma seg_lin_start (tpq : Z) (g : TempoSegment) :
  (seg_lin tpq g (seg_start_tick g) == ms_at_start g)%Q.
Proof.
  unfold seg_lin. rewrite Z.sub_diag. change (inject_Z 0) with 0%Q. unfold Qdiv. ring.
Qed.

Lemma seg_lin_mono (tpq : Z) (g : TempoSegment) (t1 t2 : Z) :
  0 < tpq -> 0 <= mpqn g -> t1 <= t2 -> (seg_lin tpq g t1 <= seg_lin tpq g t2)%Q.
Proof.
  intros Htpq Hm Ht. unfold seg_lin.
  set (k := (inject_Z (mpqn g) / inject_Z tpq / 1000)%Q).
  assert (Hk : (0 <= k)%Q).
  { unfold k, Qdiv. apply Qmult_le_0_compat; [apply Qmult_le_0_compat|].
    - change (inject_Z 0 <= inject_Z (mpqn g))%Q. rewrite <- Zle_Qle. exact Hm.
    - apply Qinv_le_0_compat. change (inject_Z 0 <= inject_Z tpq)%Q. rewrite <- Zle_Qle. lia.
    - apply Qinv_le_0_compat. discriminate. }
  assert (Heq : forall t, (ms_at_start g + inject_Z (t - seg_start_tick g) * inject_Z (mpqn g)
                           / inject_Z tpq / 1000
                           == ms_at_start g + inject_Z (t - seg_start_tick g) * k)%Q)
    by (intros t; unfold k, Qdiv; ring).
  rewrite !Heq. apply Qplus_le_compat; [apply Qle_refl|].
  apply Qmult_le_compat_r; [|exact Hk]. rewrite <- Zle_Qle. lia.
Qed.

Lemma seg_pick_mono (tpq : Z) (Htpq : 0 < tpq) (rest : list TempoSegment) :
  forall g, seg_chain tpq g rest -> forall t1 t2, t1 <= t2 ->
  (seg_lin tpq (seg_pick t1 g rest) t1 <= seg_lin tpq (seg_pick t2 g rest) t2)%Q.
Proof.
  induction rest as [|h rest' IH]; intros g Hc t1 t2 Ht.
  - simpl. apply seg_lin_mono; [exact Htpq | exact (proj1 Hc) | exact Ht].
  - destruct Hc as [Hm [Hhg [Hms Hc']]]. simpl.
    destruct (Z.leb (seg_start_tick g) t1) eqn:E1;
      destruct (Z.leb (seg_start_tick g) t2) eqn:E2.
    + apply seg_lin_mono; assumption.
    + apply Z.leb_le in E1. apply Z.leb_gt in E2. lia.
    + apply Z.leb_gt in E1. apply Z.leb_le in E2.
      apply Qle_trans with (seg_lin tpq (seg_pick (seg_start_tick g) h rest') (seg_start_tick g)).
      * apply IH; [exact Hc' | lia].
      * rewrite (seg_pick_here _ h rest' Hhg), <- Hms, <- (seg_lin_start tpq g).
        apply seg_lin_mono; assumption.
    + apply IH; assumption.
Qed.

Lemma segment_step_inv (tpq : Z) (st : Z * Q * Z * list TempoSegment) (c : Z * Z) :
  0 <= snd c -> seg_inv tpq st -> seg_inv tpq (segment_step tpq st c).
Proof.
  destruct st as [[[lt acc] lm] segs]. destruct c as [tick m]. simpl. intros Hm [Hlt Hsegs].
  destruct (Z.ltb tick lt) eqn:E; [split; assumption|].
  apply Z.ltb_ge in E. destruct segs as [|g rest]; [destruct Hsegs|].
  destruct Hsegs as [Hs [Hms [Hmp [Hc H0]]]].
  set (acc' := if Z.ltb lt tick
               then (acc + inject_Z (tick - lt) * inject_Z lm / inject_Z tpq / 1000)%Q
               else acc).
  assert (Hacc : (acc' == seg_lin tpq g tick)%Q).
  { unfold acc', seg_lin. rewrite Hs, Hmp, Hms.
    destruct (Z.ltb lt tick) eqn:E2; [reflexivity|].
    apply Z.ltb_ge in E2. replace (tick - lt) with 0 by lia.
    change (inject_Z 0) with 0%Q. unfold Qdiv. ring. }
  split; [lia|]. split; [reflexivity|]. split; [reflexivity|]. split; [reflexivity|].
  split.
  - simpl. split; [exact Hm|]. split; [lia|]. split; [exact Hacc | exact Hc].
  - simpl. destruct (Z.leb tick 0) eqn:E0; [|exact H0].
    apply Z.leb_le in E0. assert (tick = 0) by lia. subst tick.
    assert (Hl0 : lt = 0) by lia. rewrite Hl0 in Hs.
    rewrite (seg_pick_here 0 g rest) in H0 by lia.
    pose proof (seg_lin_start tpq g) as Hg. rewrite Hs in Hg.
    change (seg_lin tpq (mkSegment m 0 acc') 0 == 0)%Q.
    rewrite (seg_lin_start tpq (mkSegment m 0 acc')). simpl.
    rewrite Hacc, Hg. rewrite Hg in H0. exact H0.
Qed.

Lemma segment_fold_inv (tpq : Z) (l : list (Z * Z)) :
  forall st, (forall c, In c l -> 0 <= snd c) -> seg_inv tpq st ->
  seg_inv tpq (fold_left (segment_step tpq) l st).
Proof.
  induction l as [|c l IH]; intros st Hl Hst; simpl; [exact Hst|].
  apply IH; [intros c' Hc'; apply Hl; right; exact Hc'|].
  apply segment_step_inv; [apply Hl; left; reflexivity | exact Hst].
Qed.

(** [ticks_to_ms] over the segments [build_segments] makes is monotone:
    a later tick is never placed at an earlier millisecond. The tick-0
    entry the extraction always pushes makes the first segment start at
    tick 0 and 0 ms, so no tick falls before it (where the source's
    [tick - segment.start_tick] would underflow). *)
Theorem ticks_to_ms_monotone :
  forall (changes : list (Z * Z)) (tpq : Z),
  0 < tpq ->
  (forall c, In c changes -> 0 <= fst c /\ 0 <= snd c) ->
  (exists m, In (0, m) changes) ->
  (ticks_to_ms (build_segments changes tpq) tpq 0 == 0)%Q /\
  (forall t1 t2, 0 <= t1 <= t2 ->
     (ticks_to_ms (build_segments changes tpq) tpq t1
      <= ticks_to_ms (build_segments changes tpq) tpq t2)%Q).
Proof.
  intros changes tpq Htpq Hch [m0 Hm0].
  rewrite build_segments_eq.
  set (sorted := sort_stable (fun a b => Z.ltb (fst a) (fst b)) changes).
  assert (Hsorted : Sorted (fun a b => fst a <= fst b) sorted).
  { apply (sort_stable_sorted (fun a b => Z.ltb (fst a) (fst b))).
    - intros x y H. apply Z.ltb_lt in H. lia.
    - intros x y H. apply Z.ltb_ge in H. lia. }
  assert (Hin : forall c, In c sorted -> 0 <= fst c /\ 0 <= snd c)
    by (intros c Hc; apply Hch, (sort_stable_in _ _ _ Hc)).
  assert (H0 : In (0, m0) sorted) by (apply sort_stable_complete; exact Hm0).
  destruct sorted as [|[tick0 mh] l] eqn:Es; [destruct H0|].
  assert (Htick0 : tick0 = 0).
  { apply Sorted_StronglySorted in Hsorted; [|intros x y z; lia].
    inversion Hsorted as [|? ? _ Hall]; subst.
    destruct H0 as [H0|H0].
    - injection H0 as <- _. reflexivity.
    - rewrite Forall_forall in Hall. specialize (Hall _ H0). simpl in Hall.
      pose proof (Hin _ (or_introl eq_refl)). simpl in *. lia. }
  subst tick0.
  assert (Hinv : seg_inv tpq (fold_left (segment_step tpq) l
                                (0, 0%Q, mh, [mkSegment mh 0 0%Q]))).
  { apply segment_fold_inv.
    - intros c Hc. apply (Hin c (or_intror Hc)).
    - simpl. split; [lia|]. split; [reflexivity|]. split; [reflexivity|].
      split; [reflexivity|]. split.
      + split; [apply (Hin _ (or_introl eq_refl)) | exact I].
      + unfold seg_lin. simpl. unfold Qdiv. ring. }
  change (fold_left (segment_step tpq) ((0, mh) :: l) (0, 0%Q, DEFAULT_MPQN, []))
    with (fold_left (segment_step tpq) l (0, 0%Q, mh, [mkSegment mh 0 0%Q])).
  destruct (fold_left (segment_step tpq) l (0, 0%Q, mh, [mkSegment mh 0 0%Q]))
    as [[[lt acc] lm] segs].
  destruct Hinv as [_ Hsegs]. destruct segs as [|g rest]; [destruct Hsegs|].
  destruct Hsegs as [_ [_ [_ [Hc Hz]]]].
  split.
  - rewrite ticks_to_ms_pick. exact Hz.
  - intros t1 t2 Ht. rewrite !ticks_to_ms_pick. apply seg_pick_mono; [exact Htpq | exact Hc | lia].
Qed.

Lemma ticks_to_ms_monotone_witness :
  0 < 480 /\
  (forall c, In c [(0, DEFAULT_MPQN); (960, 250000)] -> 0 <= fst c /\ 0 <= snd c) /\
  (exists m, In (0, m) [(0, DEFAULT_MPQN); (960, 250000)]) /\
  Qeq (ticks_to_ms (build_segments [(0, DEFAULT_MPQN); (960, 250000)] 480) 480 0) 0%Q /\
  (forall t1 t2, 0 <= t1 <= t2 ->
     Qle (ticks_to_ms (build_segments [(0, DEFAULT_MPQN); (960, 250000)] 480) 480 t1)
         (ticks_to_ms (build_segments [(0, DEFAULT_MPQN); (960, 250000)] 480) 480 t2)).
Proof.
  assert (Hc : forall c, In c [(0, DEFAULT_MPQN); (960, 250000)] -> 0 <= fst c /\ 0 <= snd c).
  { intros c Hc. simpl in Hc. destruct Hc as [<-|[<-|[]]]; unfold DEFAULT_MPQN; simpl; lia. }
  assert (He : exists m, In (0, m) [(0, DEFAULT_MPQN); (960, 250000)])
    by (exists DEFAULT_MPQN; left; reflexivity).
  split; [lia|]. split; [exact Hc|]. split; [exact He|].
  exact (ticks_to_ms_monotone _ 480 ltac:(lia) Hc He).
Defined.

(** ** Monophonic input through the reduction *)

Section StableSortId.
Context {A : Type} (lt : A -> A -> bool).

(** No element is strictly smaller than an element before it. *)
Fixpoint no_inversion (l : list A) : Prop :=
  match l with
  | [] => True
  | y :: l' => (forall x, In x l' -> lt x y = false) /\ no_inversion l'
  end.

Lemma insert_stable_last (x : A) (acc : list A) :
  (forall y, In y acc -> lt x y = false) -> insert_stable lt x acc = acc ++ [x].
Proof.
  induction acc as [|y acc IH]; intros H; simpl; [reflexivity|].
  rewrite (H y (or_introl eq_refl)), IH; [reflexivity|].
  intros y' Hy'. apply H. right. exact Hy'.
Qed.

Lemma sort_stable_id (l : list A) : no_inversion l -> sort_stable lt l = l.
Proof.
  unfold sort_stable.
  assert (Hgen : forall acc, (forall y x, In y acc -> In x l -> lt x y = false) ->
                 no_inversion l ->
                 fold_left (fun acc x => insert_stable lt x acc) l acc = acc ++ l).
  { induction l as [|x l IH]; intros acc Hacc Hl; simpl; [rewrite app_nil_r; reflexivity|].
    destruct Hl as [Hx Hl].
    rewrite insert_stable_last by (intros y Hy; apply Hacc; [exact Hy | left; reflexivity]).
    rewrite IH; [rewrite <- app_assoc; reflexivity| |exact Hl].
    intros y x' Hy Hx'. apply in_app_or in Hy. destruct Hy as [Hy|[<-|[]]].
    - apply Hacc; [exact Hy | right; exact Hx'].
    - apply Hx, Hx'. }
  intros Hl. apply Hgen; [intros y x []|exact Hl].
Qed.

Lemma no_inversion_app (a b : list A) :
  no_inversion a -> no_inversion b -> (forall y x, In y a -> In x b -> lt x y = false) ->
  no_inversion (a ++ b).
Proof.
  induction a as [|y a IH]; intros Ha Hb Hab; simpl; [exact Hb|].
  destruct Ha as [Hy Ha]. split.
  - intros x Hx. apply in_app_or in Hx. destruct Hx as [Hx|Hx].
    + apply Hy, Hx.
    + apply Hab; [left; reflexivity | exact Hx].
  - apply IH; [exact Ha | exact Hb|]. intros y' x Hy' Hx. apply Hab; [right; exact Hy' | exact Hx].
Qed.
End StableSortId.

(** Each event starts no earlier than the previous one ends. *)
Fixpoint sequential (events : list Event) : Prop :=
  match events with
  | a :: ((b :: _) as l) => (end_ms a <= time_ms b)%Q /\ sequential l
  | _ => True
  end.

Fixpoint starts_after (lb : Q) (events : list Event) : Prop :=
  match events with
  | [] => True
  | e :: es => (lb <= time_ms e)%Q /\ starts_after (end_ms e) es
  end.

(** The output event the sweep builds for an isolated input event. *)
Definition isolated_output (e : Event) : Event :=
  mkEvent (note e) (time_ms e) (end_ms e - time_ms e)%Q.

Lemma sequential_starts_after (es : list Event) :
  forall e, sequential (e :: es) -> starts_after (end_ms e) es.
Proof.
  induction es as [|e' es IH]; intros e H; simpl; [exact I|].
  destruct H as [H1 H2]. split; [exact H1 | apply IH, H2].
Qed.

Lemma point_lt_false (x y : Point) :
  (pt_time_ms y <= pt_time_ms x)%Q ->
  (is_start x = false -> (pt_time_ms y < pt_time_ms x)%Q) ->
  point_lt x y = false.
Proof.
  intros Hle Hlt. unfold point_lt.
  destruct (Qcompare_spec (pt_time_ms x) (pt_time_ms y)) as [Heq|Hl|Hg].
  - destruct (is_start x); [reflexivity|]. specialize (Hlt eq_refl). lra.
  - lra.
  - reflexivity.
Qed.

Lemma points_after (lb : Q) (es : list Event) :
  (forall e, In e es -> (0 < duration_ms e)%Q) -> starts_after lb es ->
  forall x, In x (flat_map points_of_event es) ->
  (lb <= pt_time_ms x)%Q /\ (is_start x = false -> (lb < pt_time_ms x)%Q).
Proof.
  revert lb. induction es as [|e es IH]; intros lb Hd Hs x Hx; [destruct Hx|].
  destruct Hs as [Hlb Hs]. pose proof (Hd e (or_introl eq_refl)) as He.
  simpl in Hx. destruct Hx as [<-|[<-|Hx]]; simpl.
  - split; [exact Hlb | discriminate].
  - split; intros; lra.
  - destruct (IH (end_ms e) (fun e' H => Hd e' (or_intror H)) Hs x Hx) as [H1 H2].
    unfold end_ms in *. split; [lra|]. intros H. specialize (H2 H). lra.
Qed.

Lemma points_no_inversion (es : list Event) :
  forall lb, (forall e, In e es -> (0 < duration_ms e)%Q) -> starts_after lb es ->
  no_inversion point_lt (flat_map points_of_event es).
Proof.
  induction es as [|e es IH]; intros lb Hd Hs; [exact I|].
  change (no_inversion point_lt (points_of_event e ++ flat_map points_of_event es)).
  destruct Hs as [_ Hs]. pose proof (Hd e (or_introl eq_refl)) as He.
  pose proof (fun e' H => Hd e' (or_intror H)) as Hd'.
  apply no_inversion_app.
  - simpl. split; [|split; [intros x []|exact I]].
    intros x [<-|[]]. apply point_lt_false; simpl; intros; lra.
  - exact (IH (end_ms e) Hd' Hs).
  - intros y x Hy Hx. destruct (points_after (end_ms e) es Hd' Hs x Hx) as [H1 H2].
    apply point_lt_false.
    + destruct Hy as [<-|[<-|[]]]; simpl; unfold end_ms in *; lra.
    + intros H. specialize (H2 H). destruct Hy as [<-|[<-|[]]]; simpl; unfold end_ms in *; lra.
Qed.

Lemma sweep_app (policy : PolyPolicy) (l1 l2 : list Point) :
  forall st, sweep policy st (l1 ++ l2)
             = match sweep policy st l1 with Some st' => sweep policy st' l2 | None => None end.
Proof.
  induction l1 as [|pt l1 IH]; intros st; simpl; [reflexivity|].
  destruct (sweep_step policy st pt); [apply IH | reflexivity].
Qed.

Lemma sweep_isolated_event (policy : PolyPolicy) (r : list Event) (e : Event) :
  policy <> Densest -> (EPSILON_MS < duration_ms e)%Q ->
  sweep policy (mkSweep r None None [] []) (points_of_event e)
  = Some (mkSweep (isolated_output e :: r) None None [] []).
Proof.
  intros Hp Hd. destruct e as [[m v] t d]. unfold points_of_event, isolated_output, end_ms.
  simpl in *.
  unfold EPSILON_MS in *.
  destruct policy; [| | |congruence]; unfold sweep, sweep_step; simpl;
    repeat (rewrite Z.eqb_refl; simpl);
    match goal with |- context [Qlt_le_dec ?a ?b] => destruct (Qlt_le_dec a b) end;
    try reflexivity; unfold EPSILON_MS in *; lra.
Qed.

Lemma sweep_isolated_events (policy : PolyPolicy) (Hp : policy <> Densest) (es : list Event) :
  forall r, (forall e, In e es -> (EPSILON_MS < duration_ms e)%Q) ->
  sweep policy (mkSweep r None None [] []) (flat_map points_of_event es)
  = Some (mkSweep (rev (map isolated_output es) ++ r) None None [] []).
Proof.
  induction es as [|e es IH]; intros r Hd; [reflexivity|].
  change (flat_map points_of_event (e :: es)) with (points_of_event e ++ flat_map points_of_event es).
  rewrite sweep_app, sweep_isolated_event by (auto; apply Hd; left; reflexivity).
  rewrite IH by (intros e' He'; apply Hd; right; exact He').
  simpl. rewrite <- app_assoc. reflexivity.
Qed.

(** A monophonic input (no two events overlap, each longer than the
    2 ms epsilon) goes through the reduction unchanged, in order, with each
    event's note, start and end kept; only [Densest], whose choice is
    [todo!()], panics. *)
Theorem reduce_monophonic_passthrough :
  forall (events : list Event) (policy : PolyPolicy),
  policy <> Densest ->
  (forall e, In e events -> (EPSILON_MS < duration_ms e)%Q) ->
  sequential events ->
  reduce_to_monophonic events policy false = Some (map isolated_output events).
Proof.
  intros events policy Hp Hd Hseq.
  unfold reduce_to_monophonic. destruct events as [|e0 es] eqn:Ev; [reflexivity|].
  rewrite <- Ev in *.
  assert (Hpos : forall e, In e events -> (0 < duration_ms e)%Q)
    by (intros e He; specialize (Hd e He); unfold EPSILON_MS in Hd; lra).
  assert (Hs : starts_after (time_ms e0) events).
  { rewrite Ev. split; [apply Qle_refl|]. apply sequential_starts_after. rewrite <- Ev. exact Hseq. }
  unfold sorted_points.
  rewrite (sort_stable_id point_lt _ (points_no_inversion events (time_ms e0) Hpos Hs)).
  change sweep_init with (mkSweep [] None None [] []).
  rewrite (sweep_isolated_events policy Hp events [] Hd). simpl.
  rewrite app_nil_r, rev_involutive, merge_pass_off. reflexivity.
Qed.

Lemma reduce_monophonic_passthrough_witness :
  Lowest <> Densest /\
  (forall e, In e [ev 69 100 0 500; ev 71 90 500 250] -> (EPSILON_MS < duration_ms e)%Q) /\
  sequential [ev 69 100 0 500; ev 71 90 500 250] /\
  reduce_to_monophonic [ev 69 100 0 500; ev 71 90 500 250] Lowest false
  = Some (map isolated_output [ev 69 100 0 500; ev 71 90 500 250]).
Proof.
  assert (Hd : forall e, In e [ev 69 100 0 500; ev 71 90 500 250] -> (EPSILON_MS < duration_ms e)%Q).
  { intros e He. simpl in He. destruct He as [<-|[<-|[]]]; vm_compute; reflexivity. }
  assert (Hs : sequential [ev 69 100 0 500; ev 71 90 500 250])
    by (simpl; split; [vm_compute; discriminate | exact I]).
  split; [discriminate|]. split; [exact Hd|]. split; [exact Hs|].
  exact (reduce_monophonic_passthrough _ Lowest ltac:(discriminate) Hd Hs).
Defined.
